(** * XrdProofServProxy: the session proxy of the PROOF daemon

    A shallow embedding of [proofd/inc/XrdProofServProxy.h]: the buffered
    message holder [XrdSrvBuffer], the client handle [XrdClientID] and the
    inline methods of [XrdProofServProxy], followed by the properties the
    specification states about them.

    Conventions.
    - A pointer is an integer address, [NULL] is 0.
    - Memory is explicit: a [Heap] holds the [char] arrays obtained from
      [malloc] and the [XrdSrvBuffer] objects obtained from [new].  A
      computation that touches memory lives in the monad [M]; it has no
      result ([None]) where the C++ program has undefined behaviour
      (freeing or reading an address that is not allocated) and where the
      answer given for the allocator is one no allocator gives (a block
      that is in use).
    - Every inline method opens with [XrdOucMutexHelper mhp(fMutex)], which
      takes the recursive mutex of the proxy and gives it back when the
      method returns.  A method is modelled by the transformation it
      performs while it holds the mutex.

    The second part embeds [roofitcore/src/RooRealSumFunc.cxx]: the
    constructors, [evaluate], [isBinnedDistribution], [binBoundaries],
    [plotSamplingHint] and [printMetaArgs]. *)

From stdpp Require Import base numbers option list gmap strings sorting.

Local Open Scope Z_scope.

(** ** Pointers and machine integers *)

Abbreviation ptr := Z (only parsing).

Definition NULL : ptr := 0.

Definition INT_MAX : Z := 2 ^ 31 - 1.

(** The conversion [(int) n] of a [size_t]: the value modulo [2^32], read
    as a signed 32-bit integer. *)
Definition int_cast (n : Z) : Z := (n + 2 ^ 31) mod 2 ^ 32 - 2 ^ 31.

(** ** XrdSrvBuffer *)

Record XrdSrvBuffer := mkXrdSrvBuffer {
  fSize   : Z;      (* int   fSize   *)
  fBuff   : ptr;    (* char *fBuff   *)
  fMembuf : ptr     (* char *fMembuf, private *)
}.

(** ** Memory *)

Record Heap := mkHeap {
  chars   : gmap Z (list Z);        (* char arrays, by base address *)
  buffers : gmap Z XrdSrvBuffer     (* XrdSrvBuffer objects, by address *)
}.

Definition set_chars (f : gmap Z (list Z) → gmap Z (list Z)) (h : Heap) : Heap :=
  {| chars := f (chars h); buffers := buffers h |}.

Definition set_buffers (f : gmap Z XrdSrvBuffer → gmap Z XrdSrvBuffer) (h : Heap) : Heap :=
  {| chars := chars h; buffers := f (buffers h) |}.

(** Computations over the heap; [None]: no defined run. *)
Definition M (A : Type) : Type := Heap → option (A * Heap).

#[global] Instance M_ret : MRet M := λ A (a : A) h, Some (a, h).

#[global] Instance M_bind : MBind M := λ A B (k : A → M B) (m : M A) h,
  match m h with
  | Some (a, h') => k a h'
  | None => None
  end.

(** [malloc(sz)].  The allocator is not part of the program: its answer
    [a] is an input of the model, [NULL] when it has no memory left and
    otherwise the base address of a block that is not in use.  A fresh
    block holds [sz] bytes of no particular value (written as 0 here). *)
Definition malloc (a : ptr) (sz : Z) : M ptr :=
  λ h, if decide (a = NULL) then Some (NULL, h)
       else match chars h !! a with
            | None => Some (a, set_chars <[a := replicate (Z.to_nat sz) 0]> h)
            | Some _ => None
            end.

(** [free(p)]: [p] has to be the base address of a block in use. *)
Definition free (p : ptr) : M unit :=
  λ h, match chars h !! p with
       | Some _ => Some (tt, set_chars (delete p) h)
       | None => None
       end.

(** [memcpy(dst, src, n)]: both arrays have to hold [n] bytes at least. *)
Definition memcpy (dst src : ptr) (n : Z) : M unit :=
  λ h, match chars h !! dst, chars h !! src with
       | Some d, Some s =>
           if decide (Z.to_nat n ≤ length d ∧ Z.to_nat n ≤ length s)%nat
           then Some (tt, set_chars
                            <[dst := take (Z.to_nat n) s ++ drop (Z.to_nat n) d]> h)
           else None
       | _, _ => None
       end.

(** The constructor [XrdSrvBuffer(char *bp=0, int sz=0, bool dup=0)].
    [uninit] is what the storage of the object holds before the
    constructor runs: the one path that assigns neither [fBuff] nor
    [fSize] leaves these two members as they were. *)
Definition XrdSrvBuffer_ctor (uninit : XrdSrvBuffer) (a : ptr)
    (bp : ptr) (sz : Z) (dup : bool) : M XrdSrvBuffer :=
  if dup && bool_decide (bp ≠ NULL) && bool_decide (0 < sz) then
    m ← malloc a sz;
    if bool_decide (m ≠ NULL) then
      memcpy m bp sz;;
      mret {| fSize := sz; fBuff := m; fMembuf := m |}
    else
      mret {| fSize := fSize uninit; fBuff := fBuff uninit; fMembuf := m |}
  else
    mret {| fSize := sz; fBuff := bp; fMembuf := bp |}.

(** The destructor [~XrdSrvBuffer() {if (fMembuf) free(fMembuf);}]. *)
Definition XrdSrvBuffer_dtor (b : XrdSrvBuffer) : M unit :=
  if bool_decide (fMembuf b ≠ NULL) then free (fMembuf b) else mret tt.

(** [delete p] for a [XrdSrvBuffer *p] that is not null: the destructor
    runs, then the object is given back. *)
Definition delete_XrdSrvBuffer (p : ptr) : M unit :=
  λ h, match buffers h !! p with
       | Some b => (XrdSrvBuffer_dtor b;;
                    (λ h', Some (tt, set_buffers (delete p) h')) : M unit) h
       | None => None
       end.

(** ** XrdClientID *)

Record XrdClientID := mkXrdClientID {
  fP   : ptr;   (* XrdProofdProtocol *fP *)
  fSid : Z      (* unsigned short fSid   *)
}.

(** [XrdClientID(XrdProofdProtocol *pt = 0, unsigned short id = 0)] *)
Definition XrdClientID_ctor (pt : ptr) (id : Z) : XrdClientID :=
  {| fP := pt; fSid := id |}.

(** [bool IsValid() const { return (fP != 0); }] *)
Definition XrdClientID_IsValid (c : XrdClientID) : bool :=
  bool_decide (fP c ≠ NULL).

(** [void Reset() { fP = 0; fSid = 0; }] *)
Definition XrdClientID_Reset (c : XrdClientID) : XrdClientID :=
  {| fP := NULL; fSid := 0 |}.

(** ** XrdProofServProxy *)

(** The data members the inline methods below read or write.  The members
    left out (the mutex, the response helper, the strings set through
    [SetCharValue], the scheduling parameters and the [float]) are private
    and no method modelled here touches them. *)
Record XrdProofServProxy := mkXrdProofServProxy {
  fLink         : ptr;                 (* XrdLink *fLink *)
  fParent       : ptr;                 (* XrdClientID *fParent *)
  fClients      : list XrdClientID;    (* attached clients stream ids *)
  fWorkers      : list ptr;            (* std::list<XrdProofWorker *> *)
  fPingSem      : ptr;                 (* XrdOucSemWait *fPingSem *)
  fQueryNum     : ptr;                 (* XrdSrvBuffer *fQueryNum *)
  fStartMsg     : ptr;                 (* XrdSrvBuffer *fStartMsg *)
  fRequirements : ptr;                 (* XrdSrvBuffer *fRequirements *)
  fStatus       : Z;
  fSrvID        : Z;
  fSrvType      : Z;
  fID           : Z;
  fIsValid      : bool;
  fIsShutdown   : bool
}.

(** The client table is [std::vector<XrdClientID *> fClients] in the
    header; the functions that fill and scan it are defined outside the
    header.  The table is kept here as the sequence of the handles its
    slots stand for, which is the view the specification takes of it. *)

Definition set_fClients (v : list XrdClientID) (x : XrdProofServProxy) :=
  {| fLink := fLink x; fParent := fParent x; fClients := v;
     fWorkers := fWorkers x; fPingSem := fPingSem x;
     fQueryNum := fQueryNum x; fStartMsg := fStartMsg x;
     fRequirements := fRequirements x; fStatus := fStatus x;
     fSrvID := fSrvID x; fSrvType := fSrvType x; fID := fID x;
     fIsValid := fIsValid x; fIsShutdown := fIsShutdown x |}.

Definition set_fWorkers (v : list ptr) (x : XrdProofServProxy) :=
  {| fLink := fLink x; fParent := fParent x; fClients := fClients x;
     fWorkers := v; fPingSem := fPingSem x;
     fQueryNum := fQueryNum x; fStartMsg := fStartMsg x;
     fRequirements := fRequirements x; fStatus := fStatus x;
     fSrvID := fSrvID x; fSrvType := fSrvType x; fID := fID x;
     fIsValid := fIsValid x; fIsShutdown := fIsShutdown x |}.

Definition set_fQueryNum (v : ptr) (x : XrdProofServProxy) :=
  {| fLink := fLink x; fParent := fParent x; fClients := fClients x;
     fWorkers := fWorkers x; fPingSem := fPingSem x;
     fQueryNum := v; fStartMsg := fStartMsg x;
     fRequirements := fRequirements x; fStatus := fStatus x;
     fSrvID := fSrvID x; fSrvType := fSrvType x; fID := fID x;
     fIsValid := fIsValid x; fIsShutdown := fIsShutdown x |}.

Definition set_fStartMsg (v : ptr) (x : XrdProofServProxy) :=
  {| fLink := fLink x; fParent := fParent x; fClients := fClients x;
     fWorkers := fWorkers x; fPingSem := fPingSem x;
     fQueryNum := fQueryNum x; fStartMsg := v;
     fRequirements := fRequirements x; fStatus := fStatus x;
     fSrvID := fSrvID x; fSrvType := fSrvType x; fID := fID x;
     fIsValid := fIsValid x; fIsShutdown := fIsShutdown x |}.

Definition set_fRequirements (v : ptr) (x : XrdProofServProxy) :=
  {| fLink := fLink x; fParent := fParent x; fClients := fClients x;
     fWorkers := fWorkers x; fPingSem := fPingSem x;
     fQueryNum := fQueryNum x; fStartMsg := fStartMsg x;
     fRequirements := v; fStatus := fStatus x;
     fSrvID := fSrvID x; fSrvType := fSrvType x; fID := fID x;
     fIsValid := fIsValid x; fIsShutdown := fIsShutdown x |}.

(** *** The buffered messages *)

(** [XrdSrvBuffer *QueryNum() const { ...; return fQueryNum; }] *)
Definition QueryNum (x : XrdProofServProxy) : ptr := fQueryNum x.

(** [XrdSrvBuffer *Requirements() const { ...; return fRequirements; }] *)
Definition Requirements (x : XrdProofServProxy) : ptr := fRequirements x.

(** [XrdSrvBuffer *StartMsg() const { ...; return fStartMsg; }] *)
Definition StartMsg (x : XrdProofServProxy) : ptr := fStartMsg x.

(** [void SetQueryNum(XrdSrvBuffer *qn) { ...; fQueryNum = qn; }] *)
Definition SetQueryNum (qn : ptr) (x : XrdProofServProxy) : M XrdProofServProxy :=
  mret (set_fQueryNum qn x).

(** [void SetRequirements(XrdSrvBuffer *rq) { ...; fRequirements = rq; }] *)
Definition SetRequirements (rq : ptr) (x : XrdProofServProxy) : M XrdProofServProxy :=
  mret (set_fRequirements rq x).

(** [void SetStartMsg(XrdSrvBuffer *sm) { ...; fStartMsg = sm; }] *)
Definition SetStartMsg (sm : ptr) (x : XrdProofServProxy) : M XrdProofServProxy :=
  mret (set_fStartMsg sm x).

(** [void DeleteQueryNum()
      { ...; if (fQueryNum) delete fQueryNum; fQueryNum = 0;}] *)
Definition DeleteQueryNum (x : XrdProofServProxy) : M XrdProofServProxy :=
  (if bool_decide (fQueryNum x ≠ NULL)
   then delete_XrdSrvBuffer (fQueryNum x) else mret tt);;
  mret (set_fQueryNum NULL x).

(** [void DeleteStartMsg()
      { ...; if (fStartMsg) delete fStartMsg; fStartMsg = 0;}] *)
Definition DeleteStartMsg (x : XrdProofServProxy) : M XrdProofServProxy :=
  (if bool_decide (fStartMsg x ≠ NULL)
   then delete_XrdSrvBuffer (fStartMsg x) else mret tt);;
  mret (set_fStartMsg NULL x).

(** *** The worker pool *)

(** [std::list::push_back] *)
Definition push_back {A} (w : A) (l : list A) : list A := l ++ [w].

(** [std::list::remove(w)]: erases every element that compares equal to
    [w]. *)
Fixpoint list_remove (w : ptr) (l : list ptr) : list ptr :=
  match l with
  | [] => []
  | v :: l' => if decide (v = w) then list_remove w l'
               else v :: list_remove w l'
  end.

(** [int GetNWorkers() { ...; return (int) fWorkers.size(); }] *)
Definition GetNWorkers (x : XrdProofServProxy) : Z :=
  int_cast (Z.of_nat (length (fWorkers x))).

(** [void AddWorker(XrdProofWorker *w) { ...; fWorkers.push_back(w); }] *)
Definition AddWorker (w : ptr) (x : XrdProofServProxy) : XrdProofServProxy :=
  set_fWorkers (push_back w (fWorkers x)) x.

(** [void RemoveWorker(XrdProofWorker *w) { ...; fWorkers.remove(w); }] *)
Definition RemoveWorker (w : ptr) (x : XrdProofServProxy) : XrdProofServProxy :=
  set_fWorkers (list_remove w (fWorkers x)) x.

(** *** Pointers to the collections *)

(** [std::vector<XrdClientID *> *Clients() const] returns [&fClients] and
    [std::list<XrdProofWorker *> *Workers() const] returns [&fWorkers],
    each through a cast that drops the [const] the method puts on the
    member.

    Both return the address of a data member of the proxy, as a pointer to
    a non-const collection.  Proxies live in memory at their addresses; the
    address of a member is named by the address of the proxy it is part
    of. *)
Inductive vector_ptr : Type :=
  | addr_fClients (this : ptr).
Inductive list_ptr : Type :=
  | addr_fWorkers (this : ptr).

Definition Clients (this : ptr) : vector_ptr := addr_fClients this.
Definition Workers (this : ptr) : list_ptr := addr_fWorkers this.

(** What the holder of such a pointer can do without the proxy: read the
    collection, [*p], and run any member function of the collection on it,
    [p->push_back(w)], [p->clear()], ... *)
Definition vector_read (p : vector_ptr) (mem : gmap Z XrdProofServProxy)
  : option (list XrdClientID) :=
  match p with addr_fClients this => fClients <$> mem !! this end.

Definition vector_write (f : list XrdClientID → list XrdClientID)
    (p : vector_ptr) (mem : gmap Z XrdProofServProxy) : gmap Z XrdProofServProxy :=
  match p with
  | addr_fClients this => alter (λ x, set_fClients (f (fClients x)) x) this mem
  end.

Definition list_read (p : list_ptr) (mem : gmap Z XrdProofServProxy)
  : option (list ptr) :=
  match p with addr_fWorkers this => fWorkers <$> mem !! this end.

Definition list_write (f : list ptr → list ptr)
    (p : list_ptr) (mem : gmap Z XrdProofServProxy) : gmap Z XrdProofServProxy :=
  match p with
  | addr_fWorkers this => alter (λ x, set_fWorkers (f (fWorkers x)) x) this mem
  end.

(** [this->GetNWorkers()] for the proxy at address [this]. *)
Definition call_GetNWorkers (this : ptr) (mem : gmap Z XrdProofServProxy)
  : option Z := GetNWorkers <$> mem !! this.

(** *** Client multiplexing *)

(** Modelled from the spec: [GetFreeID] is declared in the header and
    defined in the implementation file, which is not among the sources.
    "Scans the client-handle sequence for the first invalid slot; if found,
    returns its index; otherwise appends a new invalid slot and returns the
    new index."  [first_invalid ic l] is the scan, [ic] the index of the
    head of [l]. *)
Fixpoint first_invalid (ic : nat) (l : list XrdClientID) : option nat :=
  match l with
  | [] => None
  | c :: l' => if XrdClientID_IsValid c then first_invalid (S ic) l'
               else Some ic
  end.

(** Modelled from the spec: the body of [XrdProofServProxy::GetFreeID],
    missing with the implementation file.  The scan of [first_invalid]
    decides; the result is the index and the proxy after the call. *)
Definition GetFreeID (x : XrdProofServProxy) : nat * XrdProofServProxy :=
  match first_invalid 0 (fClients x) with
  | Some ic => (ic, x)
  | None => (length (fClients x),
             set_fClients (push_back (XrdClientID_ctor NULL 0) (fClients x)) x)
  end.

(** Modelled from the spec: [GetNClients] is defined in the implementation
    file.  "Count of slots whose handle is currently valid (not merely
    sequence length)."  [count_valid nc l] is the counting loop, [nc] the
    counter so far. *)
Fixpoint count_valid (nc : nat) (l : list XrdClientID) : nat :=
  match l with
  | [] => nc
  | c :: l' => count_valid (if XrdClientID_IsValid c then S nc else nc) l'
  end.

(** Modelled from the spec: the body of [XrdProofServProxy::GetNClients],
    missing with the implementation file; it is the loop [count_valid]
    started at 0. *)
Definition GetNClients (x : XrdProofServProxy) : nat :=
  count_valid 0 (fClients x).

(** Modelled from the spec: attaching and detaching a client are done by
    the protocol code, which is not among the sources.  Attaching takes a
    free slot from [GetFreeID] and stores the connection and its stream id
    there; "detaching a client resets its slot to invalid rather than
    removing it", and an index out of range reaches no slot of the
    sequence. *)
Definition AttachClient (pt : ptr) (sid : Z) (x : XrdProofServProxy)
  : nat * XrdProofServProxy :=
  let '(id, x') := GetFreeID x in
  (id, set_fClients (<[id := XrdClientID_ctor pt sid]> (fClients x')) x').

(** Modelled from the spec: the detach request of the protocol code,
    which is not among the sources; it resets slot [k] where it is. *)
Definition DetachClient (k : nat) (x : XrdProofServProxy) : XrdProofServProxy :=
  set_fClients (alter XrdClientID_Reset k (fClients x)) x.

(** Modelled from the spec: the requests of the protocol code (not among
    the sources) that reach the client table, attach and detach. *)
Inductive client_op :=
  | Attach (pt : ptr) (sid : Z)
  | Detach (k : nat).

(** Modelled from the spec: one request of a history of attach and
    detach requests, as the missing protocol code serves it. *)
Definition client_step (x : XrdProofServProxy) (o : client_op) : XrdProofServProxy :=
  match o with
  | Attach pt sid => snd (AttachClient pt sid x)
  | Detach k => DetachClient k x
  end.

(** Modelled from the spec: a history of attach and detach requests of
    the missing protocol code, served in order. *)
Definition client_run (ops : list client_op) (x : XrdProofServProxy) : XrdProofServProxy :=
  foldl client_step x ops.

(** *** The parent handle and the ping semaphore *)

Definition set_fParent (v : ptr) (x : XrdProofServProxy) :=
  {| fLink := fLink x; fParent := v; fClients := fClients x;
     fWorkers := fWorkers x; fPingSem := fPingSem x;
     fQueryNum := fQueryNum x; fStartMsg := fStartMsg x;
     fRequirements := fRequirements x; fStatus := fStatus x;
     fSrvID := fSrvID x; fSrvType := fSrvType x; fID := fID x;
     fIsValid := fIsValid x; fIsShutdown := fIsShutdown x |}.

Definition set_fPingSem (v : ptr) (x : XrdProofServProxy) :=
  {| fLink := fLink x; fParent := fParent x; fClients := fClients x;
     fWorkers := fWorkers x; fPingSem := v;
     fQueryNum := fQueryNum x; fStartMsg := fStartMsg x;
     fRequirements := fRequirements x; fStatus := fStatus x;
     fSrvID := fSrvID x; fSrvType := fSrvType x; fID := fID x;
     fIsValid := fIsValid x; fIsShutdown := fIsShutdown x |}.

(** [XrdClientID *Parent() const { ...; return fParent; }] *)
Definition Parent (x : XrdProofServProxy) : ptr := fParent x.

(** [void SetParent(XrdClientID *cid) { ...; fParent = cid; }] *)
Definition SetParent (cid : ptr) (x : XrdProofServProxy) : XrdProofServProxy :=
  set_fParent cid x.

(** [bool IsParent(XrdProofdProtocol *p) const
      { ...; return (fParent && fParent->fP == p); }]
    [ids] holds the [XrdClientID] objects by address: the parent handle is
    not owned by the proxy.  Reading through a parent pointer that is not
    null and designates no object has no defined result. *)
Definition IsParent (ids : gmap Z XrdClientID) (p : ptr)
    (x : XrdProofServProxy) : option bool :=
  if bool_decide (fParent x ≠ NULL) then
    match ids !! fParent x with
    | Some c => Some (bool_decide (fP c = p))
    | None => None
    end
  else Some false.

(** [XrdOucSemWait *PingSem() const { ...; return fPingSem; }] *)
Definition PingSem (x : XrdProofServProxy) : ptr := fPingSem x.

(** [void CreatePingSem() { ...; fPingSem = new XrdOucSemWait(0);}]
    [sems] holds the semaphores by address, each with the count it was
    created with.  [a] is the address [new] answers with, not null and not
    in use. *)
Definition CreatePingSem (a : ptr) (x : XrdProofServProxy) (sems : gmap Z Z)
  : option (XrdProofServProxy * gmap Z Z) :=
  if decide (a ≠ NULL ∧ sems !! a = None)
  then Some (set_fPingSem a x, <[a := 0]> sems)
  else None.

(** [void DeletePingSem()
      { ...; if (fPingSem) delete fPingSem; fPingSem = 0;}] *)
Definition DeletePingSem (x : XrdProofServProxy) (sems : gmap Z Z)
  : option (XrdProofServProxy * gmap Z Z) :=
  if bool_decide (fPingSem x ≠ NULL) then
    match sems !! fPingSem x with
    | Some _ => Some (set_fPingSem NULL x, delete (fPingSem x) sems)
    | None => None
    end
  else Some (set_fPingSem NULL x, sems).

(** ** Predicates used in the statements *)

(** How often [w] is in the pool. *)
Definition occurrences (w : ptr) (l : list ptr) : nat :=
  length (filter (λ v, v = w) l).

(** A holder pointer that [delete] can take: null is never deleted, and a
    holder that is deleted is allocated, with a [fMembuf] that is null or
    a block in use. *)
Definition holder_ok (h : Heap) (p : ptr) : Prop :=
  p = NULL ∨
  ∃ b, buffers h !! p = Some b ∧
       (fMembuf b = NULL ∨ is_Some (chars h !! fMembuf b)).

(** Slot [k] of the sequence is invalid and every slot before it is
    valid. *)
Definition first_invalid_at (l : list XrdClientID) (k : nat) : Prop :=
  (∃ c, l !! k = Some c ∧ XrdClientID_IsValid c = false) ∧
  ∀ j c, (j < k)%nat → l !! j = Some c → XrdClientID_IsValid c = true.

Definition all_valid (l : list XrdClientID) : Prop :=
  ∀ j c, l !! j = Some c → XrdClientID_IsValid c = true.

(** The slots of a sequence that hold a valid handle. *)
Definition valid_slots (l : list XrdClientID) : list XrdClientID :=
  filter (λ c, XrdClientID_IsValid c = true) l.

(** ** Concrete states used in the examples *)

Definition empty_proxy : XrdProofServProxy :=
  {| fLink := NULL; fParent := NULL; fClients := []; fWorkers := [];
     fPingSem := NULL; fQueryNum := NULL; fStartMsg := NULL;
     fRequirements := NULL; fStatus := 0; fSrvID := 0; fSrvType := 0;
     fID := 0; fIsValid := false; fIsShutdown := false |}.

Definition empty_heap : Heap := {| chars := ∅; buffers := ∅ |}.

(** A heap with one holder at address 100 that owns the four bytes at
    address 200. *)
Definition one_holder_heap : Heap :=
  {| chars := {[ 200 := [1; 2; 3; 4] ]};
     buffers := {[ 100 := {| fSize := 4; fBuff := 200; fMembuf := 200 |} ]} |}.

(** A proxy whose query-number holder is the one of [one_holder_heap]. *)
Definition proxy_with_query : XrdProofServProxy := set_fQueryNum 100 empty_proxy.

(** A proxy whose start message is the holder of [one_holder_heap]. *)
Definition proxy_with_start : XrdProofServProxy := set_fStartMsg 100 empty_proxy.

(** Three slots: connection 11 attached, a free slot, connection 13
    attached. *)
Definition three_slots : XrdProofServProxy :=
  set_fClients [XrdClientID_ctor 11 1; XrdClientID_ctor NULL 0;
                XrdClientID_ctor 13 3] empty_proxy.

(** Two slots, both attached. *)
Definition two_attached : XrdProofServProxy :=
  set_fClients [XrdClientID_ctor 11 1; XrdClientID_ctor 12 2] empty_proxy.

(** Run after connection 11 took slot 0: attach 12, detach slot 0,
    attach 13.  Connection 13 takes slot 0 again and connection 12 is still
    at index 1. *)
Definition sample_history : list client_op :=
  [Attach 12 2; Detach 0; Attach 13 3].

(** One proxy, at address 1, with an empty pool. *)
Definition one_proxy_mem : gmap Z XrdProofServProxy := {[ 1 := empty_proxy ]}.

(** * RooRealSumFunc *)

(** ** Values of type [double] *)

(** The program computes with [double].  Its operations are an interface
    here: the definitions below use them where the source does, and the
    theorems hold for every interpretation, that of the machine
    included. *)
Class DoubleOps (D : Type) := {
  d_zero : D;                 (* the constant 0 *)
  d_one : D;                  (* the constant 1 *)
  d_add : D → D → D;          (* [a + b] *)
  d_sub : D → D → D;          (* [a - b] *)
  d_mul : D → D → D;          (* [a * b] *)
  d_nonzero : D → bool;       (* [if (a)] *)
  d_lt : D → D → bool;        (* [a < b] *)
  d_eq : D → D → bool         (* [a == b] *)
}.

(** The integers as values: sums, differences and products of integers of
    small magnitude are exact in [double]. *)
#[global] Instance Z_DoubleOps : DoubleOps Z := {|
  d_zero := 0; d_one := 1;
  d_add := Z.add; d_sub := Z.sub; d_mul := Z.mul;
  d_nonzero := λ a, negb (Z.eqb a 0);
  d_lt := Z.ltb; d_eq := Z.eqb
|}.

(** ** Components *)

(** What the functions below ask of an element of a [RooArgList]. *)
Record RooAbsArg (D : Type) := mkRooAbsArg {
  GetName : option string;    (* [GetName()], [None] when it is null *)
  isRooAbsReal : bool;        (* [dynamic_cast<RooAbsReal const*>] succeeds *)
  getVal : D;                 (* [getVal()] *)
  isSelectedComp : bool       (* [isSelectedComp()] *)
}.
Arguments mkRooAbsArg {D} _ _ _ _.
Arguments GetName {D} _.
Arguments isRooAbsReal {D} _.
Arguments getVal {D} _.
Arguments isSelectedComp {D} _.

(** The data members the functions below use. *)
Record RooRealSumFunc (D : Type) := mkRooRealSumFunc {
  _haveLastCoef : bool;
  _funcList : list (RooAbsArg D);
  _coefList : list (RooAbsArg D);
  _doFloor : bool
}.
Arguments mkRooRealSumFunc {D} _ _ _ _.
Arguments _haveLastCoef {D} _.
Arguments _funcList {D} _.
Arguments _coefList {D} _.
Arguments _doFloor {D} _.

(** ** Constructors *)

(** What the constructor writes with [coutE] and [coutW]. *)
Inductive ctor_message :=
  | E_inconsistent (ownName : string)
  | W_coef_ignored (ownName coefName : string)
  | W_func_ignored (ownName funcName : string)
  | E_last_func (ownName funcName : string).

(** How a constructor ends. *)
Inductive outcome (A : Type) :=
  | Returned (a : A)
  | Aborted            (* [assert(0)] with assertions compiled in *)
  | Thrown             (* [throw std::invalid_argument(...)] *)
  | NoResult.          (* an element read past the end of a list *)
Arguments Returned {A} _.
Arguments Aborted {A}.
Arguments Thrown {A}.
Arguments NoResult {A}.

(** [RooRealSumFunc(const char *name, const char *title)] *)
Definition RooRealSumFunc_named {D} : RooRealSumFunc D :=
  {| _haveLastCoef := false; _funcList := []; _coefList := [];
     _doFloor := false |}.

(** [RooRealSumFunc(name, title, func1, func2, coef1)]: [add] appends to a
    list proxy. *)
Definition RooRealSumFunc_pair {D} (func1 func2 coef1 : RooAbsArg D)
  : RooRealSumFunc D :=
  {| _haveLastCoef := false; _funcList := [func1; func2];
     _coefList := [coef1]; _doFloor := false |}.

(** The [for] loop of the list constructor, at index [i] with the
    coefficients [rest] still to visit; [fl] and [cl] are [_funcList] and
    [_coefList] so far.  [inFuncList[i]] is read before anything is
    tested. *)
Fixpoint add_pairs {D} (ownName : string) (inFuncList : list (RooAbsArg D))
    (i : nat) (rest : list (RooAbsArg D)) (fl cl : list (RooAbsArg D))
    (log : list ctor_message)
  : option (list (RooAbsArg D) * list (RooAbsArg D) * list ctor_message) :=
  match rest with
  | [] => Some (fl, cl, log)
  | coef :: rest' =>
      match inFuncList !! i with
      | None => None
      | Some func =>
          if negb (isRooAbsReal coef) then
            add_pairs ownName inFuncList (S i) rest' fl cl
              (log ++ [W_coef_ignored ownName (default "" (GetName coef))])
          else if negb (isRooAbsReal func) then
            add_pairs ownName inFuncList (S i) rest' fl cl
              (log ++ [W_func_ignored ownName (default "" (GetName func))])
          else
            add_pairs ownName inFuncList (S i) rest'
              (fl ++ [func]) (cl ++ [coef]) log
      end
  end.

(** [RooRealSumFunc(name, title, inFuncList, inCoefList)].  [NDEBUG] tells
    whether assertions are compiled out; [name] is [GetName()] of the
    object.  The result is what was written and how the constructor
    ended.  List sizes are natural numbers. *)
Definition RooRealSumFunc_ctor {D} (NDEBUG : bool) (name : option string)
    (inFuncList inCoefList : list (RooAbsArg D))
  : list ctor_message * outcome (RooRealSumFunc D) :=
  let ownName := default "" name in
  let consistent :=
    bool_decide (length inFuncList = S (length inCoefList)
                 ∨ length inFuncList = length inCoefList) in
  let log0 := if consistent then [] else [E_inconsistent ownName] in
  if negb consistent && negb NDEBUG then (log0, Aborted)
  else
    match add_pairs ownName inFuncList 0 inCoefList [] [] log0 with
    | None => (log0, NoResult)
    | Some (fl, cl, log) =>
        if bool_decide (length inFuncList = S (length inCoefList)) then
          match inFuncList !! (length inFuncList - 1)%nat with
          | None => (log, NoResult)
          | Some func =>
              if negb (isRooAbsReal func) then
                (log ++ [E_last_func ownName (default "" (GetName func))],
                 Thrown)
              else
                (log, Returned {| _haveLastCoef := false;
                                  _funcList := fl ++ [func];
                                  _coefList := cl; _doFloor := false |})
          end
        else
          (log, Returned {| _haveLastCoef := true; _funcList := fl;
                            _coefList := cl; _doFloor := false |})
    end.

(** ** evaluate *)

(** The [while] loop of [evaluate]: one coefficient and one function per
    turn.  An iterator that is at its end answers null and stays there.
    A function is looked into only when the coefficient is not zero; a
    null function has no defined result then.  The result is [value],
    [lastCoef] and the functions not yet visited. *)
Fixpoint evaluate_loop {D} `{DoubleOps D} (coefs funcs : list (RooAbsArg D))
    (value lastCoef : D) : option (D * D * list (RooAbsArg D)) :=
  match coefs with
  | [] => Some (value, lastCoef, funcs)
  | coef :: coefs' =>
      let coefVal := getVal coef in
      if d_nonzero coefVal then
        match head funcs with
        | None => None
        | Some func =>
            evaluate_loop coefs' (tail funcs)
              (if isSelectedComp func
               then d_add value (d_mul (getVal func) coefVal) else value)
              (d_sub lastCoef (getVal coef))
        end
      else evaluate_loop coefs' (tail funcs) value lastCoef
  end.

(** [double RooRealSumFunc::evaluate() const].  [doFloorGlobal] is the
    static [_doFloorGlobal].  The result is the value and the values
    written with the warning about the coefficient sum ([1 - lastCoef]);
    messages of debug level are left out. *)
Definition evaluate {D} `{DoubleOps D} (doFloorGlobal : bool)
    (self : RooRealSumFunc D) : option (D * list D) :=
  match evaluate_loop (_coefList self) (_funcList self) d_zero d_one with
  | None => None
  | Some (value, lastCoef, funcs) =>
      let last :=
        if negb (_haveLastCoef self) then
          match head funcs with
          | None => None
          | Some func =>
              Some (if isSelectedComp func
                    then d_add value (d_mul (getVal func) lastCoef)
                    else value,
                    if d_lt lastCoef d_zero || d_lt d_one lastCoef
                    then [d_sub d_one lastCoef] else [])
          end
        else Some (value, [])
      in
      match last with
      | None => None
      | Some (value, warnings) =>
          Some (if d_lt value d_zero && (_doFloor self || doFloorGlobal)
                then d_zero else value,
                warnings)
      end
  end.

(** ** isBinnedDistribution *)

(** [bool RooRealSumFunc::isBinnedDistribution(const RooArgSet &obs) const]
    [dependsOn] and [isBinned] are the answers of a component to
    [dependsOn(obs)] and [isBinnedDistribution(obs)]. *)
Fixpoint isBinnedDistribution {D} (dependsOn isBinned : RooAbsArg D → bool)
    (funcs : list (RooAbsArg D)) : bool :=
  match funcs with
  | [] => true
  | func :: funcs' =>
      if dependsOn func && negb (isBinned func) then false
      else isBinnedDistribution dependsOn isBinned funcs'
  end.

(** ** binBoundaries and plotSamplingHint *)

(** [std::merge(first1, last1, first2, last2, out)]: the head of the
    second range goes first when it is less than the head of the first
    range. *)
Fixpoint std_merge {D} `{DoubleOps D} (l1 : list D) : list D → list D :=
  fix merge_aux (l2 : list D) : list D :=
    match l1, l2 with
    | [], _ => l2
    | _, [] => l1
    | a :: l1', b :: l2' =>
        if d_lt b a then b :: merge_aux l2' else a :: std_merge l1' l2
    end.

(** [std::unique] followed by [erase]: an element goes when it equals the
    last element kept. *)
Fixpoint unique_after {D} `{DoubleOps D} (kept : D) (l : list D) : list D :=
  match l with
  | [] => []
  | a :: l' => if d_eq kept a then unique_after kept l'
               else a :: unique_after a l'
  end.

Definition std_unique {D} `{DoubleOps D} (l : list D) : list D :=
  match l with
  | [] => []
  | a :: l' => a :: unique_after a l'
  end.

(** One turn of the loop over the components.  [answer] is what the
    component returns from [binBoundaries(obs, xlo, xhi)] (or from
    [plotSamplingHint]): null, or a list it has just allocated.
    [fresh] is the address [new] gives when the turn needs a list. *)
Record hint_turn (D : Type) := mkHintTurn {
  answer : option (ptr * list D);
  fresh : ptr
}.
Arguments mkHintTurn {D} _ _.
Arguments answer {D} _.
Arguments fresh {D} _.

(** The body of the loop, on the [std::list<double>] objects in memory.
    The state is [sumBinB], [needClean] and memory.  [delete_func] is
    true for [binBoundaries], which has [delete funcBinB] after the merge,
    and false for [plotSamplingHint], which has not. *)
Definition hint_step {D} `{DoubleOps D} (delete_func : bool)
    (st : ptr * bool * gmap Z (list D)) (t : hint_turn D)
  : option (ptr * bool * gmap Z (list D)) :=
  let '(sum, needClean, m) := st in
  match answer t with
  | None => Some (sum, needClean, m)
  | Some (p, l) =>
      if decide (p ≠ NULL ∧ m !! p = None) then
        let m1 := <[p := l]> m in
        if decide (sum = NULL) then Some (p, needClean, m1)
        else
          match m1 !! sum with
          | None => None
          | Some sl =>
              if decide (fresh t ≠ NULL ∧ m1 !! fresh t = None) then
                let m2 := <[fresh t := std_merge l sl]> m1 in
                let m3 := delete sum m2 in
                let m4 := if delete_func then delete p m3 else m3 in
                Some (fresh t, true, m4)
              else None
          end
      else None
  end.

Fixpoint hint_loop {D} `{DoubleOps D} (delete_func : bool)
    (turns : list (hint_turn D)) (st : ptr * bool * gmap Z (list D))
  : option (ptr * bool * gmap Z (list D)) :=
  match turns with
  | [] => Some st
  | t :: turns' =>
      match hint_step delete_func st t with
      | None => None
      | Some st' => hint_loop delete_func turns' st'
      end
  end.

(** The loop, then [unique] and [erase] on the result when [needClean]. *)
Definition sum_hints {D} `{DoubleOps D} (delete_func : bool)
    (turns : list (hint_turn D)) (m : gmap Z (list D))
  : option (ptr * gmap Z (list D)) :=
  match hint_loop delete_func turns (NULL, false, m) with
  | None => None
  | Some (sum, needClean, m') =>
      Some (sum, if needClean then alter std_unique sum m' else m')
  end.

(** [std::list<double> *RooRealSumFunc::binBoundaries(obs, xlo, xhi) const],
    one turn per element of [_funcList]. *)
Definition binBoundaries {D} `{DoubleOps D} := sum_hints (D := D) true.

(** [std::list<double> *RooRealSumFunc::plotSamplingHint(obs, xlo, xhi) const],
    one turn per element of [_funcList]. *)
Definition plotSamplingHint {D} `{DoubleOps D} := sum_hints (D := D) false.

(** The hints of the components that gave one, in order. *)
Definition hints {D} (turns : list (hint_turn D)) : list (ptr * list D) :=
  omap answer turns.

(** What the hints come to as values: the one hint as it is, or the
    merge of all of them, each merged in front of the sum so far, with
    repeated neighbours removed. *)
Definition combined {D} `{DoubleOps D} (ls : list (list D)) : option (list D) :=
  match ls with
  | [] => None
  | [l] => Some l
  | l :: ls' => Some (std_unique (foldl (λ sum l', std_merge l' sum) l ls'))
  end.

(** ** printMetaArgs *)

(** The loop over the coefficients: [" + "] before every pair but the
    first, then the name of the coefficient, [" * "] and the name of the
    function the second iterator is at.  Writing a null name and reading
    the iterator at its end have no defined result.  The result is the
    stream and the functions not yet visited. *)
Fixpoint print_pairs {D} (coefs funcs : list (RooAbsArg D)) (first : bool)
    (os : string) : option (string * list (RooAbsArg D)) :=
  match coefs with
  | [] => Some (os, funcs)
  | coef :: coefs' =>
      let os1 := if first then os else os +:+ " + " in
      match funcs with
      | [] => None
      | func :: funcs' =>
          match GetName coef, GetName func with
          | Some cn, Some fn =>
              print_pairs coefs' funcs' false (((os1 +:+ cn) +:+ " * ") +:+ fn)
          | _, _ => None
          end
      end
  end.

(** The loop over the functions when there is no coefficient. *)
Fixpoint print_funcs {D} (funcs : list (RooAbsArg D)) (first : bool)
    (os : string) : option string :=
  match funcs with
  | [] => Some os
  | func :: funcs' =>
      let os1 := if first then os else os +:+ " + " in
      match GetName func with
      | Some fn => print_funcs funcs' false (os1 +:+ fn)
      | None => None
      end
  end.

(** [void RooRealSumFunc::printMetaArgs(ostream &os) const].  The stream
    is the text written to it. *)
Definition printMetaArgs {D} (self : RooRealSumFunc D) (os : string)
  : option string :=
  let body :=
    if bool_decide (length (_coefList self) ≠ 0%nat) then
      match print_pairs (_coefList self) (_funcList self) true os with
      | None => None
      | Some (os1, []) => Some os1
      | Some (os1, func :: _) =>
          match GetName func with
          | Some fn => Some ((os1 +:+ " + [%] * ") +:+ fn)
          | None => None
          end
      end
    else print_funcs (_funcList self) true os
  in
  match body with
  | Some os2 => Some (os2 +:+ " ")
  | None => None
  end.

(** ** Predicates on sums *)

(** The sizes [evaluate] relies on: one function per coefficient, and one
    more when the last coefficient is left to be computed. *)
Definition sizes_agree {D} (self : RooRealSumFunc D) : Prop :=
  length (_funcList self)
  = (length (_coefList self) + (if _haveLastCoef self then 0 else 1))%nat.

(** A function and its coefficient are both of type [RooAbsReal]. *)
Definition both_real {D} (fc : RooAbsArg D * RooAbsArg D) : bool :=
  isRooAbsReal fc.2 && isRooAbsReal fc.1.

(** The warning the list constructor writes for a pair it leaves out. *)
Definition pair_warning {D} (ownName : string)
    (fc : RooAbsArg D * RooAbsArg D) : list ctor_message :=
  if negb (isRooAbsReal fc.2)
  then [W_coef_ignored ownName (default "" (GetName fc.2))]
  else if negb (isRooAbsReal fc.1)
  then [W_func_ignored ownName (default "" (GetName fc.1))]
  else [].

(** The pairs the list constructor keeps, and the warnings it writes for
    the others. *)
Definition kept_pairs {D} (fs cs : list (RooAbsArg D))
  : list (RooAbsArg D * RooAbsArg D) :=
  filter (λ fc, both_real fc = true) (zip fs cs).

Definition pair_warnings {D} (ownName : string) (fs cs : list (RooAbsArg D))
  : list ctor_message :=
  zip fs cs ≫= pair_warning ownName.

(** Arguments for the examples: a [RooAbsReal] with a name and a value,
    selected, and an argument of another type. *)
Definition real_arg (n : string) (v : Z) : RooAbsArg Z :=
  mkRooAbsArg (Some n) true v true.

Definition other_arg (n : string) : RooAbsArg Z :=
  mkRooAbsArg (Some n) false 0 true.

(** ** Predicates on hints *)

(** The addresses a run of the loop is given: the list of each component
    that answers, and the address for [new] of each turn. *)
Definition turn_addresses {D} (turns : list (hint_turn D)) : list ptr :=
  turns ≫= λ t, from_option (λ a, [a.1]) [] (answer t) ++ [fresh t].

(** The addresses are those of distinct objects, none of them null and
    none in use in [m]. *)
Definition fresh_turns {D} (turns : list (hint_turn D)) (m : gmap Z (list D))
  : Prop :=
  NoDup (turn_addresses turns) ∧
  Forall (λ a, a ≠ NULL ∧ m !! a = None) (turn_addresses turns).

(** Memory [m] with the lists [hs] of the components still in it. *)
Definition with_hints {D} (hs : list (ptr * list D)) (m : gmap Z (list D))
  : gmap Z (list D) :=
  foldl (λ m' h, <[h.1 := h.2]> m') m hs.

(** What the loop leaves of the lists of the components after the first:
    nothing when it deletes them, all of them when it does not. *)
Definition left_over {D} (delete_func : bool) (hs : list (ptr * list D))
    (m : gmap Z (list D)) : gmap Z (list D) :=
  if delete_func then m else with_hints hs m.

(** Three components: boundaries 1, 3, 5 at address 10, no answer, and
    boundaries 2, 3, 6 at address 11; [new] answers 20, 21, 22. *)
Definition sample_turns : list (hint_turn Z) :=
  [mkHintTurn (Some (10, [1; 3; 5])) 20; mkHintTurn None 21;
   mkHintTurn (Some (11, [2; 3; 6])) 22].

(** No two neighbours of the list compare equal. *)
Definition differ {D} `{DoubleOps D} (a b : D) : Prop := d_eq a b = false.

Definition no_equal_neighbours {D} `{DoubleOps D} (l : list D) : Prop :=
  Sorted differ l.

(** [a] is not after [b]: [b < a] does not hold. *)
Definition not_after {D} `{DoubleOps D} (a b : D) : Prop := d_lt b a = false.

(** [a] is before [b]: [a < b] holds. *)
Definition before {D} `{DoubleOps D} (a b : D) : Prop := d_lt a b = true.

(** The terms [printMetaArgs] writes: one per coefficient with its
    function, then the function that has no coefficient; or, without
    coefficients, the functions. *)
Definition name_of {D} (a : RooAbsArg D) : string := default "" (GetName a).

Definition meta_terms {D} (self : RooRealSumFunc D) : list string :=
  match _coefList self with
  | [] => name_of <$> _funcList self
  | _ =>
      zip_with (λ c f, (name_of c +:+ " * ") +:+ name_of f)
        (_coefList self) (_funcList self)
      ++ match drop (length (_coefList self)) (_funcList self) with
         | [] => []
         | func :: _ => ["[%] * " +:+ name_of func]
         end
  end.

(** Every function and every coefficient has a name. *)
Definition all_named {D} (self : RooRealSumFunc D) : Prop :=
  Forall (λ a, is_Some (GetName a)) (_funcList self) ∧
  Forall (λ a, is_Some (GetName a)) (_coefList self).

(** Text written by a loop that puts [" + "] before every term but the
    first. *)
Definition joined (first : bool) (terms : list string) : string :=
  match terms with
  | [] => ""
  | _ => (if first then "" else " + ") +:+ String.concat " + " terms
  end.

(** * Properties *)

(** ** Machine integers *)

Lemma int_cast_small (n : Z) : 0 ≤ n ≤ INT_MAX → int_cast n = n.
Proof.
  unfold int_cast, INT_MAX. intros Hn.
  rewrite Z.mod_small; lia.
Qed.

Lemma GetNWorkers_fits (x : XrdProofServProxy) :
  Z.of_nat (length (fWorkers x)) ≤ INT_MAX →
  GetNWorkers x = Z.of_nat (length (fWorkers x)).
Proof. intros Hfit. apply int_cast_small. lia. Qed.

(** ** Record updates *)

Lemma set_fWorkers_same (x : XrdProofServProxy) : set_fWorkers (fWorkers x) x = x.
Proof. by destruct x. Qed.

(** ** The worker pool *)

Lemma list_remove_filter (w : ptr) (l : list ptr) :
  list_remove w l = filter (λ v, v ≠ w) l.
Proof.
  induction l as [|v l IH]; [done|]. simpl.
  destruct (decide (v = w)) as [->|Hne].
  - rewrite filter_cons_False; [done | by intros ?].
  - by rewrite filter_cons_True, IH.
Qed.

Lemma list_remove_absent (w : ptr) (l : list ptr) :
  w ∉ l → list_remove w l = l.
Proof.
  induction l as [|v l IH]; [done|]. intros Hw. simpl.
  apply not_elem_of_cons in Hw as [Hne Hl].
  destruct (decide (v = w)); [congruence|]. by rewrite IH.
Qed.

Lemma list_remove_gone (w : ptr) (l : list ptr) : w ∉ list_remove w l.
Proof.
  rewrite list_remove_filter. intros Hin.
  apply list_elem_of_filter in Hin as [Hne _]. by apply Hne.
Qed.

Lemma list_remove_length (w : ptr) (l : list ptr) :
  (length (list_remove w l) + occurrences w l = length l)%nat.
Proof.
  unfold occurrences. induction l as [|v l IH]; [done|]. simpl.
  destruct (decide (v = w)) as [->|Hne].
  - rewrite filter_cons_True by done. simpl. lia.
  - rewrite filter_cons_False by done. simpl. lia.
Qed.

Lemma occurrences_push_back (w : ptr) (l : list ptr) :
  occurrences w (push_back w l) = S (occurrences w l).
Proof.
  unfold occurrences, push_back. rewrite filter_app, length_app.
  rewrite filter_cons_True by done. simpl. lia.
Qed.

Lemma occurrences_added (n : nat) (w : ptr) (x : XrdProofServProxy) :
  occurrences w (fWorkers (Nat.iter n (AddWorker w) x))
  = (occurrences w (fWorkers x) + n)%nat.
Proof.
  induction n as [|n IH]; simpl.
  - lia.
  - rewrite occurrences_push_back, IH. lia.
Qed.

(** C1, as the specification words it, does not hold: a proxy whose pool
    holds worker 7 once reports one worker, and two after a second
    [AddWorker(7)]. *)
Lemma AddWorker_again_changes_count :
  ¬ (∀ (x : XrdProofServProxy) (w : ptr),
       w ∈ fWorkers x → GetNWorkers (AddWorker w x) = GetNWorkers x).
Proof.
  intros Hidem.
  specialize (Hidem (AddWorker 7 empty_proxy) 7).
  assert (Hin : 7 ∈ fWorkers (AddWorker 7 empty_proxy)) by (simpl; set_solver).
  apply Hidem in Hin. vm_compute in Hin. discriminate Hin.
Qed.

(** C1, amended: [AddWorker(w)] appends [w] whether or not [w] is in the
    pool already, so [w] is in the pool once more than before and, the
    count fitting an [int], [GetNWorkers()] is larger by one. *)
Theorem AddWorker_appends (x : XrdProofServProxy) (w : ptr)
    (Hfit : Z.of_nat (length (fWorkers x)) < INT_MAX) :
  fWorkers (AddWorker w x) = fWorkers x ++ [w] ∧
  occurrences w (fWorkers (AddWorker w x)) = S (occurrences w (fWorkers x)) ∧
  GetNWorkers (AddWorker w x) = GetNWorkers x + 1.
Proof.
  split; [done|]. split; [apply occurrences_push_back|].
  rewrite !GetNWorkers_fits.
  - simpl. unfold push_back. rewrite length_app. simpl. lia.
  - lia.
  - simpl. unfold push_back. rewrite length_app. simpl. lia.
Qed.

Lemma AddWorker_appends_witness :
  7 ∈ fWorkers (AddWorker 7 empty_proxy) ∧
  occurrences 7 (fWorkers (AddWorker 7 (AddWorker 7 empty_proxy))) = 2%nat ∧
  GetNWorkers (AddWorker 7 (AddWorker 7 empty_proxy)) = 2.
Proof.
  split; [simpl; set_solver|].
  pose proof (AddWorker_appends (AddWorker 7 empty_proxy) 7) as Happ.
  destruct Happ as (_ & Hocc & Hn); [vm_compute; reflexivity|].
  split; [exact Hocc | exact Hn].
Defined.

(** C6: [RemoveWorker(w)] for a [w] that is not in the pool changes
    nothing: the proxy is the same afterwards, and so is [GetNWorkers()].
    The method returns [void]; there is no failure it could report. *)
Theorem RemoveWorker_absent (x : XrdProofServProxy) (w : ptr)
    (Habsent : w ∉ fWorkers x) :
  RemoveWorker w x = x ∧ GetNWorkers (RemoveWorker w x) = GetNWorkers x.
Proof.
  assert (Hsame : RemoveWorker w x = x).
  { unfold RemoveWorker. rewrite list_remove_absent by done.
    apply set_fWorkers_same. }
  by rewrite Hsame.
Qed.

Lemma RemoveWorker_absent_witness :
  RemoveWorker 9 (AddWorker 7 empty_proxy) = AddWorker 7 empty_proxy ∧
  GetNWorkers (RemoveWorker 9 (AddWorker 7 empty_proxy))
  = GetNWorkers (AddWorker 7 empty_proxy).
Proof.
  apply (RemoveWorker_absent (AddWorker 7 empty_proxy) 9).
  simpl. unfold push_back. simpl. intros Hin.
  apply list_elem_of_singleton in Hin. discriminate Hin.
Defined.

(** C10: [RemoveWorker(w)] erases every occurrence of [w].  No [w] is left
    in the pool, the pool is shorter by the number of occurrences of [w],
    [GetNWorkers()] is smaller by that number when the count fits an
    [int], and [n] calls of [AddWorker(w)] make [n] more occurrences. *)
Theorem RemoveWorker_every_occurrence (x : XrdProofServProxy) (w : ptr) :
  (w ∉ fWorkers (RemoveWorker w x)) ∧
  (length (fWorkers (RemoveWorker w x)) + occurrences w (fWorkers x)
   = length (fWorkers x))%nat ∧
  (Z.of_nat (length (fWorkers x)) ≤ INT_MAX →
   GetNWorkers (RemoveWorker w x)
   = GetNWorkers x - Z.of_nat (occurrences w (fWorkers x))) ∧
  (∀ n : nat,
     occurrences w (fWorkers (Nat.iter n (AddWorker w) x))
     = (occurrences w (fWorkers x) + n)%nat).
Proof.
  split; [apply list_remove_gone|].
  split; [apply list_remove_length|].
  split; [|intros n; apply occurrences_added].
  intros Hfit.
  pose proof (list_remove_length w (fWorkers x)) as Hlen.
  rewrite !GetNWorkers_fits; simpl; lia.
Qed.

Lemma RemoveWorker_every_occurrence_witness :
  GetNWorkers (Nat.iter 3 (AddWorker 7) (AddWorker 5 empty_proxy)) = 4 ∧
  GetNWorkers (RemoveWorker 7 (Nat.iter 3 (AddWorker 7) (AddWorker 5 empty_proxy))) = 1 ∧
  7 ∉ fWorkers (RemoveWorker 7 (Nat.iter 3 (AddWorker 7) (AddWorker 5 empty_proxy))).
Proof.
  destruct (RemoveWorker_every_occurrence
              (Nat.iter 3 (AddWorker 7) (AddWorker 5 empty_proxy)) 7)
    as (Hgone & _ & Hcount & _).
  split; [reflexivity|]. split; [|exact Hgone].
  rewrite Hcount; [reflexivity | vm_compute; discriminate].
Defined.

(** ** The client handle *)

(** C7: a handle is valid exactly when its connection pointer is not
    null; [Reset()] leaves a handle that is not valid, equal to a freshly
    constructed [XrdClientID()], and a slot that is reset stays in its
    sequence, which keeps its length. *)
Theorem XrdClientID_IsValid_Reset (c : XrdClientID) :
  (XrdClientID_IsValid c = true ↔ fP c ≠ NULL) ∧
  XrdClientID_IsValid (XrdClientID_Reset c) = false ∧
  XrdClientID_Reset c = XrdClientID_ctor NULL 0 ∧
  (∀ (l : list XrdClientID) (k : nat),
     length (alter XrdClientID_Reset k l) = length l).
Proof.
  split; [|split; [|split]].
  - unfold XrdClientID_IsValid. apply bool_decide_eq_true.
  - done.
  - done.
  - intros l k. apply length_alter.
Qed.

(** ** The buffered message holder *)

Lemma XrdSrvBuffer_ctor_adopt (uninit : XrdSrvBuffer) (a bp : ptr) (sz : Z)
    (dup : bool) (h : Heap) :
  dup = false ∨ bp = NULL ∨ sz ≤ 0 →
  XrdSrvBuffer_ctor uninit a bp sz dup h
  = Some ({| fSize := sz; fBuff := bp; fMembuf := bp |}, h).
Proof.
  intros Hadopt. unfold XrdSrvBuffer_ctor.
  destruct Hadopt as [-> | [-> | Hsz]].
  - done.
  - rewrite bool_decide_false by (intros Hne; by apply Hne).
    by rewrite andb_false_r.
  - rewrite (bool_decide_false (0 < sz)) by lia.
    by rewrite andb_false_r.
Qed.

Lemma XrdSrvBuffer_ctor_copy (uninit : XrdSrvBuffer) (a bp : ptr) (sz : Z)
    (h : Heap) (s : list Z) :
  bp ≠ NULL → 0 < sz → a ≠ NULL →
  chars h !! a = None →
  chars h !! bp = Some s → (Z.to_nat sz ≤ length s)%nat →
  XrdSrvBuffer_ctor uninit a bp sz true h
  = Some ({| fSize := sz; fBuff := a; fMembuf := a |},
          set_chars <[a := take (Z.to_nat sz) s]> h).
Proof.
  intros Hbp Hsz Ha Hfresh Hsrc Hlen. unfold XrdSrvBuffer_ctor.
  rewrite !bool_decide_true by done. simpl.
  unfold mbind, M_bind, malloc.
  destruct (decide (a = NULL)) as [|_]; [done|].
  rewrite Hfresh. rewrite bool_decide_true by done.
  unfold memcpy. simpl.
  assert (Hne : a ≠ bp) by (intros ->; congruence).
  rewrite lookup_insert_eq, lookup_insert_ne, Hsrc by done.
  rewrite decide_True by (rewrite length_replicate; lia).
  unfold mret, M_ret, set_chars. simpl.
  rewrite insert_insert_eq.
  rewrite drop_ge by (rewrite length_replicate; lia).
  by rewrite app_nil_r.
Qed.

(** C2, as the specification words it, does not hold:
    [XrdSrvBuffer(0, 5, false)] stores the size 5 next to a null buffer. *)
Lemma XrdSrvBuffer_ctor_size_without_buffer :
  ¬ (∀ (uninit : XrdSrvBuffer) (a bp : ptr) (sz : Z) (dup : bool)
       (h : Heap) (b : XrdSrvBuffer) (h' : Heap),
       XrdSrvBuffer_ctor uninit a bp sz dup h = Some (b, h') →
       0 < fSize b ↔ fBuff b ≠ NULL).
Proof.
  intros Hinv.
  specialize (Hinv (mkXrdSrvBuffer 0 NULL NULL) NULL NULL 5 false empty_heap
                   {| fSize := 5; fBuff := NULL; fMembuf := NULL |} empty_heap
                   eq_refl).
  simpl in Hinv. destruct Hinv as [Hnull _].
  by apply Hnull.
Qed.

(** C2, amended: a holder that copies ([dup] set, [bp] not null, [sz > 0],
    the allocation answered) has the size [sz > 0] and a buffer of its own
    that is not null, so its length is positive exactly when its buffer is
    not null.  A holder built from any other arguments adopts [bp] and
    [sz] as they are, so it has that property exactly when its arguments
    have it. *)
Theorem XrdSrvBuffer_ctor_invariant (uninit : XrdSrvBuffer) (a bp : ptr)
    (sz : Z) (dup : bool) (h : Heap) :
  (dup = false ∨ bp = NULL ∨ sz ≤ 0 →
   ∃ b, XrdSrvBuffer_ctor uninit a bp sz dup h = Some (b, h) ∧
        fSize b = sz ∧ fBuff b = bp ∧
        ((0 < fSize b ↔ fBuff b ≠ NULL) ↔ (0 < sz ↔ bp ≠ NULL))) ∧
  (dup = true → bp ≠ NULL → 0 < sz → a ≠ NULL →
   chars h !! a = None →
   ∀ s, chars h !! bp = Some s → (Z.to_nat sz ≤ length s)%nat →
   ∃ b h', XrdSrvBuffer_ctor uninit a bp sz dup h = Some (b, h') ∧
           fSize b = sz ∧ fBuff b = a ∧
           chars h' !! fBuff b = Some (take (Z.to_nat sz) s) ∧
           (0 < fSize b ↔ fBuff b ≠ NULL)).
Proof.
  split.
  - intros Hadopt. eexists. split; [by apply XrdSrvBuffer_ctor_adopt|].
    simpl. done.
  - intros -> Hbp Hsz Ha Hfresh s Hsrc Hlen.
    eexists _, _. split; [by eapply XrdSrvBuffer_ctor_copy|].
    simpl. rewrite lookup_insert_eq. done.
Qed.

Lemma XrdSrvBuffer_ctor_invariant_witness :
  (∃ b, XrdSrvBuffer_ctor (mkXrdSrvBuffer 0 NULL NULL) NULL 200 0 false
          one_holder_heap = Some (b, one_holder_heap) ∧
        fSize b = 0 ∧ fBuff b = 200) ∧
  (∃ b h', XrdSrvBuffer_ctor (mkXrdSrvBuffer 0 NULL NULL) 300 200 3 true
             one_holder_heap = Some (b, h') ∧
           fSize b = 3 ∧ fBuff b = 300 ∧
           chars h' !! fBuff b = Some [1; 2; 3]).
Proof.
  split.
  - destruct (XrdSrvBuffer_ctor_invariant (mkXrdSrvBuffer 0 NULL NULL)
                NULL 200 0 false one_holder_heap) as [Hadopt _].
    destruct Hadopt as (b & Hrun & Hsize & Hbuff & _); [by left|].
    exists b. done.
  - destruct (XrdSrvBuffer_ctor_invariant (mkXrdSrvBuffer 0 NULL NULL)
                300 200 3 true one_holder_heap) as [_ Hcopy].
    destruct (Hcopy eq_refl ltac:(done) ltac:(lia) ltac:(done) eq_refl
                [1; 2; 3; 4] eq_refl ltac:(simpl; lia))
      as (b & h' & Hrun & Hsize & Hbuff & Hbytes & _).
    exists b, h'. done.
Defined.

(** ** The buffered messages of the proxy *)

(** C3, as the specification words it, does not hold: [SetQueryNum(300)] on
    a proxy that holds the holder at address 100 leaves that holder
    allocated. *)
Lemma SetQueryNum_keeps_previous_holder :
  ¬ (∀ (qn : ptr) (x : XrdProofServProxy) (h : Heap)
       (x' : XrdProofServProxy) (h' : Heap),
       fQueryNum x ≠ NULL → is_Some (buffers h !! fQueryNum x) →
       SetQueryNum qn x h = Some (x', h') →
       buffers h' !! fQueryNum x = None ∧ QueryNum x' = qn).
Proof.
  intros Hfrees.
  destruct (Hfrees 300 proxy_with_query one_holder_heap
                   (set_fQueryNum 300 proxy_with_query) one_holder_heap)
    as [Hfreed _].
  - done.
  - by eexists.
  - done.
  - vm_compute in Hfreed. discriminate Hfreed.
Qed.

(** C3, amended: each of [SetQueryNum], [SetRequirements] and [SetStartMsg]
    stores the pointer it is given and nothing else: the getter returns the
    new holder afterwards, the other two holders are the ones they were,
    and memory is untouched, the holder stored before included. *)
Theorem Set_buffered_message_overwrites (v : ptr) (x : XrdProofServProxy)
    (h : Heap) :
  (∃ x', SetQueryNum v x h = Some (x', h) ∧ QueryNum x' = v ∧
         Requirements x' = Requirements x ∧ StartMsg x' = StartMsg x) ∧
  (∃ x', SetRequirements v x h = Some (x', h) ∧ Requirements x' = v ∧
         QueryNum x' = QueryNum x ∧ StartMsg x' = StartMsg x) ∧
  (∃ x', SetStartMsg v x h = Some (x', h) ∧ StartMsg x' = v ∧
         QueryNum x' = QueryNum x ∧ Requirements x' = Requirements x).
Proof.
  split; [|split]; eexists; (split; [reflexivity|]); done.
Qed.

Lemma delete_XrdSrvBuffer_gone (p : ptr) (h h' : Heap) (u : unit) :
  delete_XrdSrvBuffer p h = Some (u, h') → buffers h' !! p = None.
Proof.
  unfold delete_XrdSrvBuffer.
  destruct (buffers h !! p) as [b|]; [|done].
  unfold mbind, M_bind.
  destruct (XrdSrvBuffer_dtor b h) as [[[] h1]|]; [|done].
  intros Hrun. injection Hrun as _ <-. simpl. apply lookup_delete_eq.
Qed.

Lemma delete_XrdSrvBuffer_defined (p : ptr) (h : Heap) :
  p ≠ NULL → holder_ok h p → is_Some (delete_XrdSrvBuffer p h).
Proof.
  intros Hp [Hnull | (b & Hb & Hmem)]; [done|].
  unfold delete_XrdSrvBuffer. rewrite Hb.
  unfold mbind, M_bind, XrdSrvBuffer_dtor.
  destruct Hmem as [Hm | [s Hs]].
  - rewrite bool_decide_false by (intros Hne; by apply Hne). by eexists.
  - destruct (bool_decide (fMembuf b ≠ NULL)); [|by eexists].
    unfold free. rewrite Hs. by eexists.
Qed.

Lemma DeleteQueryNum_inv (x x' : XrdProofServProxy) (h h' : Heap) :
  DeleteQueryNum x h = Some (x', h') →
  x' = set_fQueryNum NULL x ∧
  (fQueryNum x ≠ NULL → buffers h' !! fQueryNum x = None).
Proof.
  unfold DeleteQueryNum, mbind, M_bind.
  destruct (bool_decide_reflect (fQueryNum x ≠ NULL)) as [Hne|Heq].
  - destruct (delete_XrdSrvBuffer (fQueryNum x) h) as [[u h1]|] eqn:Hdel; [|done].
    intros [= <- <-]. split; [done|].
    intros _. by eapply delete_XrdSrvBuffer_gone.
  - intros [= <- <-]. split; [done|]. intros Hne. by destruct Heq.
Qed.

Lemma DeleteStartMsg_inv (x x' : XrdProofServProxy) (h h' : Heap) :
  DeleteStartMsg x h = Some (x', h') →
  x' = set_fStartMsg NULL x ∧
  (fStartMsg x ≠ NULL → buffers h' !! fStartMsg x = None).
Proof.
  unfold DeleteStartMsg, mbind, M_bind.
  destruct (bool_decide_reflect (fStartMsg x ≠ NULL)) as [Hne|Heq].
  - destruct (delete_XrdSrvBuffer (fStartMsg x) h) as [[u h1]|] eqn:Hdel; [|done].
    intros [= <- <-]. split; [done|].
    intros _. by eapply delete_XrdSrvBuffer_gone.
  - intros [= <- <-]. split; [done|]. intros Hne. by destruct Heq.
Qed.

Lemma DeleteQueryNum_defined (x : XrdProofServProxy) (h : Heap) :
  holder_ok h (fQueryNum x) → is_Some (DeleteQueryNum x h).
Proof.
  intros Hok. unfold DeleteQueryNum, mbind, M_bind.
  destruct (bool_decide_reflect (fQueryNum x ≠ NULL)) as [Hne|Heq].
  - destruct (delete_XrdSrvBuffer_defined _ _ Hne Hok) as [[u h1] ->].
    by eexists.
  - by eexists.
Qed.

Lemma DeleteStartMsg_defined (x : XrdProofServProxy) (h : Heap) :
  holder_ok h (fStartMsg x) → is_Some (DeleteStartMsg x h).
Proof.
  intros Hok. unfold DeleteStartMsg, mbind, M_bind.
  destruct (bool_decide_reflect (fStartMsg x ≠ NULL)) as [Hne|Heq].
  - destruct (delete_XrdSrvBuffer_defined _ _ Hne Hok) as [[u h1] ->].
    by eexists.
  - by eexists.
Qed.

(** C8: [DeleteQueryNum()] and [DeleteStartMsg()] end with the pointer
    reset.  On every proxy whose holder is null or a live holder the call
    is defined; afterwards the getter returns null and the holder that was
    stored is no longer allocated. *)
Theorem Delete_buffered_message_resets (x : XrdProofServProxy) (h : Heap) :
  (holder_ok h (fQueryNum x) →
   ∃ x' h', DeleteQueryNum x h = Some (x', h') ∧ QueryNum x' = NULL ∧
            (fQueryNum x ≠ NULL → buffers h' !! fQueryNum x = None)) ∧
  (holder_ok h (fStartMsg x) →
   ∃ x' h', DeleteStartMsg x h = Some (x', h') ∧ StartMsg x' = NULL ∧
            (fStartMsg x ≠ NULL → buffers h' !! fStartMsg x = None)) ∧
  (∀ x' h', DeleteQueryNum x h = Some (x', h') → QueryNum x' = NULL) ∧
  (∀ x' h', DeleteStartMsg x h = Some (x', h') → StartMsg x' = NULL).
Proof.
  split; [|split; [|split]].
  - intros Hok. destruct (DeleteQueryNum_defined x h Hok) as [[x' h'] Hrun].
    exists x', h'. split; [done|].
    apply DeleteQueryNum_inv in Hrun as [-> Hgone]. done.
  - intros Hok. destruct (DeleteStartMsg_defined x h Hok) as [[x' h'] Hrun].
    exists x', h'. split; [done|].
    apply DeleteStartMsg_inv in Hrun as [-> Hgone]. done.
  - intros x' h' Hrun. by apply DeleteQueryNum_inv in Hrun as [-> _].
  - intros x' h' Hrun. by apply DeleteStartMsg_inv in Hrun as [-> _].
Qed.

Lemma holder_ok_one_holder : holder_ok one_holder_heap 100.
Proof.
  right. eexists. split; [reflexivity|]. right. by eexists.
Defined.

Lemma Delete_buffered_message_resets_witness :
  (∃ x' h', DeleteQueryNum proxy_with_query one_holder_heap = Some (x', h') ∧
            QueryNum x' = NULL ∧ buffers h' !! 100 = None) ∧
  (∃ x' h', DeleteStartMsg proxy_with_start one_holder_heap = Some (x', h') ∧
            StartMsg x' = NULL ∧ buffers h' !! 100 = None).
Proof.
  split.
  - destruct (Delete_buffered_message_resets proxy_with_query one_holder_heap)
      as (Hq & _).
    destruct (Hq holder_ok_one_holder) as (x' & h' & Hrun & Hnull & Hgone).
    exists x', h'. split; [exact Hrun|]. split; [exact Hnull|].
    apply Hgone. discriminate.
  - destruct (Delete_buffered_message_resets proxy_with_start one_holder_heap)
      as (_ & Hs & _).
    destruct (Hs holder_ok_one_holder) as (x' & h' & Hrun & Hnull & Hgone).
    exists x', h'. split; [exact Hrun|]. split; [exact Hnull|].
    apply Hgone. discriminate.
Defined.

(** ** Client multiplexing *)

Lemma first_invalid_found (ic : nat) (l : list XrdClientID) (k : nat) :
  first_invalid_at l k → first_invalid ic l = Some (ic + k)%nat.
Proof.
  revert ic k. induction l as [|c l IH]; intros ic k [(c' & Hk & Hinv) Hbefore].
  - done.
  - destruct k as [|k]; simpl in *.
    + injection Hk as ->. rewrite Hinv. f_equal. lia.
    + rewrite (Hbefore 0%nat c) by (done || lia).
      rewrite (IH (S ic) k).
      * f_equal. lia.
      * split; [by exists c'|].
        intros j d Hj Hd. apply (Hbefore (S j) d); [lia|done].
Qed.

Lemma first_invalid_Some (ic : nat) (l : list XrdClientID) (i : nat) :
  first_invalid ic l = Some i →
  ∃ k, i = (ic + k)%nat ∧ first_invalid_at l k.
Proof.
  revert ic. induction l as [|c l IH]; intros ic Hscan; [done|].
  simpl in Hscan. destruct (XrdClientID_IsValid c) eqn:Hc.
  - apply IH in Hscan as (k & -> & (Hk & Hbefore)).
    exists (S k). split; [lia|]. split; [done|].
    intros [|j] d Hj Hd; simpl in Hd.
    + by injection Hd as <-.
    + apply (Hbefore j d); [lia|done].
  - injection Hscan as <-. exists 0%nat. split; [lia|].
    split; [by exists c|]. intros j d Hj. lia.
Qed.

Lemma first_invalid_None (ic : nat) (l : list XrdClientID) :
  all_valid l → first_invalid ic l = None.
Proof.
  revert ic. induction l as [|c l IH]; intros ic Hall; [done|].
  simpl. rewrite (Hall 0%nat c) by done.
  apply IH. intros j d Hd. by apply (Hall (S j) d).
Qed.

Lemma first_invalid_bound (ic : nat) (l : list XrdClientID) (k : nat)
    (c : XrdClientID) :
  l !! k = Some c → XrdClientID_IsValid c = false →
  ∃ i, first_invalid ic l = Some i ∧ (ic ≤ i ≤ ic + k)%nat.
Proof.
  revert ic k. induction l as [|d l IH]; intros ic k Hk Hinv; [done|].
  simpl. destruct (XrdClientID_IsValid d) eqn:Hd.
  - destruct k as [|k]; simpl in Hk.
    + injection Hk as ->. congruence.
    + destruct (IH (S ic) k Hk Hinv) as (i & -> & Hi).
      exists i. split; [done|lia].
  - exists ic. split; [done|lia].
Qed.

Lemma DetachClient_slot (k : nat) (x : XrdProofServProxy) (c : XrdClientID) :
  fClients x !! k = Some c →
  fClients (DetachClient k x) !! k = Some (XrdClientID_Reset c).
Proof. intros Hk. simpl. by rewrite list_lookup_alter_eq, Hk. Qed.

Lemma DetachClient_other (k j : nat) (x : XrdProofServProxy) :
  k ≠ j → fClients (DetachClient k x) !! j = fClients x !! j.
Proof. intros Hne. simpl. by apply list_lookup_alter_ne. Qed.

Lemma DetachClient_length (k : nat) (x : XrdProofServProxy) :
  length (fClients (DetachClient k x)) = length (fClients x).
Proof. simpl. apply length_alter. Qed.

Lemma GetFreeID_finds (x : XrdProofServProxy) (k : nat) (c : XrdClientID) :
  fClients x !! k = Some c → XrdClientID_IsValid c = false →
  ∃ i, (i ≤ k)%nat ∧ first_invalid_at (fClients x) i ∧ GetFreeID x = (i, x).
Proof.
  intros Hk Hc.
  destruct (first_invalid_bound 0 _ k c Hk Hc) as (i & Hscan & Hi).
  exists i. split; [lia|]. split.
  - apply first_invalid_Some in Hscan as (i' & -> & Hfirst). done.
  - unfold GetFreeID. by rewrite Hscan.
Qed.

(** C4: when some slot is invalid, [GetFreeID()] returns the index of the
    first invalid slot and changes nothing; when every slot is valid it
    appends one invalid slot and returns its index.  After the client at
    index [k] is detached, [GetFreeID()] returns no index above [k], and
    [k] itself when no slot before [k] is free. *)
Theorem GetFreeID_first_invalid (x : XrdProofServProxy) :
  (∀ k c, fClients x !! k = Some c → XrdClientID_IsValid c = false →
     ∃ i, (i ≤ k)%nat ∧ first_invalid_at (fClients x) i ∧
          GetFreeID x = (i, x)) ∧
  (all_valid (fClients x) →
   GetFreeID x = (length (fClients x),
                  set_fClients (fClients x ++ [XrdClientID_ctor NULL 0]) x) ∧
   first_invalid_at (fClients (snd (GetFreeID x))) (length (fClients x))) ∧
  (∀ k, (k < length (fClients x))%nat →
     (fst (GetFreeID (DetachClient k x)) ≤ k)%nat ∧
     first_invalid_at (fClients (DetachClient k x))
                      (fst (GetFreeID (DetachClient k x))) ∧
     snd (GetFreeID (DetachClient k x)) = DetachClient k x ∧
     ((∀ j c, (j < k)%nat → fClients x !! j = Some c →
              XrdClientID_IsValid c = true) →
      GetFreeID (DetachClient k x) = (k, DetachClient k x))).
Proof.
  split; [|split].
  - intros k c Hk Hc. apply GetFreeID_finds with (c := c); done.
  - intros Hall. unfold GetFreeID.
    rewrite (first_invalid_None 0 _ Hall). split; [done|].
    simpl. unfold push_back. split.
    + exists (XrdClientID_ctor NULL 0). split; [|done].
      by rewrite lookup_app_r, Nat.sub_diag by lia.
    + intros j c Hj Hc. apply (Hall j c).
      by rewrite lookup_app_l in Hc.
  - intros k Hk.
    destruct (lookup_lt_is_Some_2 _ _ Hk) as [c Hc].
    pose proof (DetachClient_slot k x c Hc) as Hslot.
    destruct (GetFreeID_finds _ k _ Hslot eq_refl) as (i & Hi & Hfirst & Hrun).
    rewrite Hrun. simpl fst. simpl snd.
    split; [done|]. split; [done|]. split; [done|].
    intros Hbefore. f_equal.
    assert (Hat : first_invalid_at (fClients (DetachClient k x)) k).
    { split; [by eexists|].
      intros j d Hj Hd. rewrite DetachClient_other in Hd by lia.
      by apply (Hbefore j d). }
    pose proof (first_invalid_found 0 _ k Hat) as Hk'.
    pose proof (first_invalid_found 0 _ i Hfirst) as Hi'.
    rewrite Hk' in Hi'. injection Hi' as Heq. lia.
Qed.

Lemma GetFreeID_first_invalid_witness :
  GetFreeID three_slots = (1%nat, three_slots) ∧
  fst (GetFreeID two_attached) = 2%nat ∧
  GetFreeID (DetachClient 0 two_attached) = (0%nat, DetachClient 0 two_attached).
Proof.
  split; [|split].
  - destruct (GetFreeID_first_invalid three_slots) as (Hfound & _).
    destruct (Hfound 1%nat (XrdClientID_ctor NULL 0) eq_refl eq_refl)
      as (i & Hi & _ & Hrun).
    assert (i = 1%nat) as -> by (vm_compute in Hrun; congruence).
    exact Hrun.
  - destruct (GetFreeID_first_invalid two_attached) as (_ & Happend & _).
    destruct Happend as [-> _]; [|reflexivity].
    intros [|[|j]] c Hc; simpl in Hc; try discriminate;
      by injection Hc as <-.
  - destruct (GetFreeID_first_invalid two_attached) as (_ & _ & Hdetach).
    destruct (Hdetach 0%nat) as (_ & _ & _ & Hk); [simpl; lia|].
    apply Hk. intros j c Hj. lia.
Defined.

Lemma count_valid_filter (nc : nat) (l : list XrdClientID) :
  count_valid nc l = (nc + length (valid_slots l))%nat.
Proof.
  unfold valid_slots. revert nc.
  induction l as [|c l IH]; intros nc; simpl; [lia|].
  rewrite IH. destruct (XrdClientID_IsValid c) eqn:Hc.
  - rewrite filter_cons_True by done. simpl. lia.
  - rewrite filter_cons_False by congruence. lia.
Qed.

Lemma valid_slots_reset (l : list XrdClientID) (k : nat) (c : XrdClientID) :
  l !! k = Some c → XrdClientID_IsValid c = true →
  S (length (valid_slots (alter XrdClientID_Reset k l))) = length (valid_slots l).
Proof.
  unfold valid_slots. revert k.
  induction l as [|d l IH]; intros k Hk Hc; [done|].
  destruct k as [|k]; simpl in Hk.
  - injection Hk as ->. simpl.
    rewrite filter_cons_False by done.
    by rewrite filter_cons_True by done.
  - change (alter XrdClientID_Reset (S k) (d :: l))
      with (d :: alter XrdClientID_Reset k l).
    destruct (XrdClientID_IsValid d) eqn:Hd.
    + rewrite !filter_cons_True by done. cbn [length].
      f_equal. by apply IH.
    + rewrite !filter_cons_False by congruence. by apply IH.
Qed.

Lemma GetFreeID_length (x : XrdProofServProxy) :
  (length (fClients x) ≤ length (fClients (snd (GetFreeID x))))%nat ∧
  (fst (GetFreeID x) < length (fClients (snd (GetFreeID x))))%nat.
Proof.
  unfold GetFreeID. destruct (first_invalid 0 (fClients x)) as [ic|] eqn:Hscan.
  - simpl. split; [lia|].
    apply first_invalid_Some in Hscan as (k & -> & (c & Hk & _) & _).
    apply lookup_lt_Some in Hk. lia.
  - simpl. unfold push_back. rewrite length_app. simpl. lia.
Qed.

Lemma GetFreeID_keeps_valid (x : XrdProofServProxy) (i : nat) (c : XrdClientID) :
  fClients x !! i = Some c → XrdClientID_IsValid c = true →
  fst (GetFreeID x) ≠ i ∧ fClients (snd (GetFreeID x)) !! i = Some c.
Proof.
  intros Hi Hc. unfold GetFreeID.
  destruct (first_invalid 0 (fClients x)) as [ic|] eqn:Hscan; simpl.
  - split; [|done]. intros ->.
    apply first_invalid_Some in Hscan as (k & -> & (d & Hk & Hd) & _).
    simpl in Hi. congruence.
  - apply lookup_lt_Some in Hi as Hlt. split; [lia|].
    unfold push_back. by rewrite lookup_app_l.
Qed.

Lemma AttachClient_slot (pt : ptr) (sid : Z) (x : XrdProofServProxy) :
  fClients (snd (AttachClient pt sid x)) !! fst (AttachClient pt sid x)
  = Some (XrdClientID_ctor pt sid).
Proof.
  unfold AttachClient. pose proof (GetFreeID_length x) as [_ Hlt].
  destruct (GetFreeID x) as [id x']. simpl in *.
  by apply list_lookup_insert_eq.
Qed.

Lemma client_step_length (x : XrdProofServProxy) (o : client_op) :
  (length (fClients x) ≤ length (fClients (client_step x o)))%nat.
Proof.
  destruct o as [pt sid|k]; simpl.
  - unfold AttachClient. pose proof (GetFreeID_length x) as [Hle _].
    destruct (GetFreeID x) as [id x']. simpl in *.
    by rewrite length_insert.
  - by rewrite length_alter.
Qed.

Lemma client_step_keeps_valid (x : XrdProofServProxy) (o : client_op)
    (i : nat) (c : XrdClientID) :
  fClients x !! i = Some c → XrdClientID_IsValid c = true →
  o ≠ Detach i → fClients (client_step x o) !! i = Some c.
Proof.
  intros Hi Hc Ho. destruct o as [pt sid|k].
  - simpl. unfold AttachClient.
    pose proof (GetFreeID_keeps_valid x i c Hi Hc) as [Hne Hkeep].
    destruct (GetFreeID x) as [id x']. simpl in *.
    by rewrite list_lookup_insert_ne.
  - assert (k ≠ i) by congruence.
    simpl client_step. by rewrite DetachClient_other.
Qed.

Lemma client_run_keeps_valid (ops : list client_op) (x : XrdProofServProxy)
    (i : nat) (c : XrdClientID) :
  fClients x !! i = Some c → XrdClientID_IsValid c = true →
  Detach i ∉ ops → fClients (client_run ops x) !! i = Some c.
Proof.
  revert x. induction ops as [|o ops IH]; intros x Hi Hc Hops; [done|].
  apply not_elem_of_cons in Hops as [Ho Hops].
  unfold client_run. simpl. apply IH; [|done|done].
  apply client_step_keeps_valid; [done|done|congruence].
Qed.

Lemma client_run_length (ops : list client_op) (x : XrdProofServProxy) :
  (length (fClients x) ≤ length (fClients (client_run ops x)))%nat.
Proof.
  revert x. induction ops as [|o ops IH]; intros x; [done|].
  unfold client_run. simpl.
  etransitivity; [apply (client_step_length x o)|apply IH].
Qed.

(** C5: after any history of attach and detach requests [GetNClients()]
    is the number of slots that hold a valid handle; the sequence never
    gets shorter; detaching a valid client keeps the length, leaves its
    slot reset in place and lowers [GetNClients()] by one; and the index an
    attach returned keeps designating that client for as long as the
    history does not detach it. *)
Theorem GetNClients_counts_valid (ops : list client_op) (x : XrdProofServProxy) :
  GetNClients (client_run ops x)
  = length (valid_slots (fClients (client_run ops x))) ∧
  (length (fClients x) ≤ length (fClients (client_run ops x)))%nat ∧
  (∀ k c, fClients x !! k = Some c → XrdClientID_IsValid c = true →
     length (fClients (DetachClient k x)) = length (fClients x) ∧
     fClients (DetachClient k x) !! k = Some (XrdClientID_Reset c) ∧
     S (GetNClients (DetachClient k x)) = GetNClients x) ∧
  (∀ i c, fClients x !! i = Some c → XrdClientID_IsValid c = true →
     Detach i ∉ ops → fClients (client_run ops x) !! i = Some c) ∧
  (∀ pt sid, pt ≠ NULL →
     Detach (fst (AttachClient pt sid x)) ∉ ops →
     fClients (client_run ops (snd (AttachClient pt sid x)))
       !! fst (AttachClient pt sid x) = Some (XrdClientID_ctor pt sid)).
Proof.
  split; [|split; [|split; [|split]]].
  - unfold GetNClients. by rewrite count_valid_filter.
  - apply client_run_length.
  - intros k c Hk Hc. split; [apply DetachClient_length|].
    split; [by apply DetachClient_slot|].
    unfold GetNClients. rewrite !count_valid_filter. simpl.
    by rewrite (valid_slots_reset _ k c).
  - intros i c. apply client_run_keeps_valid.
  - intros pt sid Hpt Hops.
    apply client_run_keeps_valid; [apply AttachClient_slot| |done].
    unfold XrdClientID_IsValid. simpl. by apply bool_decide_eq_true.
Qed.

Lemma GetNClients_counts_valid_witness :
  fst (AttachClient 11 1 empty_proxy) = 0%nat ∧
  fClients (client_run sample_history (snd (AttachClient 11 1 empty_proxy))) !! 1%nat
  = Some (XrdClientID_ctor 12 2) ∧
  GetNClients (client_run [Attach 12 2; Detach 0]
                 (snd (AttachClient 11 1 empty_proxy))) = 1%nat ∧
  length (fClients (client_run [Attach 12 2; Detach 0]
                      (snd (AttachClient 11 1 empty_proxy)))) = 2%nat.
Proof.
  split; [reflexivity|].
  destruct (GetNClients_counts_valid [Detach 0; Attach 13 3]
              (snd (AttachClient 11 1 empty_proxy)))
    as (_ & _ & _ & _ & Hstable).
  split.
  - apply (Hstable 12 2); [discriminate|].
    simpl. intros Hin.
    apply elem_of_cons in Hin as [Heq | Hin]; [discriminate Heq|].
    apply list_elem_of_singleton in Hin. discriminate Hin.
  - destruct (GetNClients_counts_valid [Attach 12 2; Detach 0]
                (snd (AttachClient 11 1 empty_proxy))) as (-> & _).
    split; reflexivity.
Defined.

(** ** Pointers to the collections *)

(** C9, as the specification words it, does not hold: [Workers()] is a
    pointer to the pool itself, and [Workers()->push_back(7)] changes what
    [GetNWorkers()] returns without a call to [AddWorker]. *)
Lemma Workers_pointer_changes_pool :
  ¬ (∀ (mem : gmap Z XrdProofServProxy) (this : ptr) (f : list ptr → list ptr),
       call_GetNWorkers this (list_write f (Workers this) mem)
       = call_GetNWorkers this mem).
Proof.
  intros Hframe.
  specialize (Hframe one_proxy_mem 1 (push_back 7)).
  vm_compute in Hframe. discriminate Hframe.
Qed.

(** C9, amended: [Clients()] and [Workers()] hand out the addresses of the
    client table and of the worker pool of the proxy.  What is read
    through them is the collection of the proxy, and what is written
    through them is what the proxy sees afterwards: its pool,
    [GetNWorkers()] and its client table change with no method of the
    proxy called. *)
Theorem Clients_Workers_alias (mem : gmap Z XrdProofServProxy) (this : ptr)
    (x : XrdProofServProxy) (Hx : mem !! this = Some x) :
  list_read (Workers this) mem = Some (fWorkers x) ∧
  vector_read (Clients this) mem = Some (fClients x) ∧
  (∀ f, list_write f (Workers this) mem !! this
        = Some (set_fWorkers (f (fWorkers x)) x)) ∧
  (∀ f, call_GetNWorkers this (list_write f (Workers this) mem)
        = Some (int_cast (Z.of_nat (length (f (fWorkers x)))))) ∧
  (∀ f, vector_write f (Clients this) mem !! this
        = Some (set_fClients (f (fClients x)) x)) ∧
  (∀ f, GetNClients <$> vector_write f (Clients this) mem !! this
        = Some (count_valid 0 (f (fClients x)))).
Proof.
  unfold call_GetNWorkers. simpl.
  rewrite Hx. simpl.
  repeat split; intros f; rewrite lookup_alter_eq, Hx; done.
Qed.

Lemma Clients_Workers_alias_witness :
  call_GetNWorkers 1 one_proxy_mem = Some 0 ∧
  call_GetNWorkers 1 (list_write (push_back 7) (Workers 1) one_proxy_mem) = Some 1 ∧
  GetNClients <$> vector_write (push_back (XrdClientID_ctor 11 1)) (Clients 1)
                    one_proxy_mem !! 1 = Some 1%nat.
Proof.
  destruct (Clients_Workers_alias one_proxy_mem 1 empty_proxy eq_refl)
    as (_ & _ & _ & Hpool & _ & Htable).
  split; [reflexivity|]. split.
  - rewrite Hpool. reflexivity.
  - rewrite Htable. reflexivity.
Defined.

(** * Further properties of the session proxy *)

(** ** Lifetime of a buffered message holder *)

Lemma set_chars_delete_insert (a : ptr) (s : list Z) (h : Heap) :
  chars h !! a = None → set_chars (delete a) (set_chars <[a := s]> h) = h.
Proof.
  intros Hfresh. destruct h as [cs bs]. unfold set_chars. simpl in *.
  by rewrite delete_insert_id.
Qed.

(** X1: a holder that copies owns its copy and nothing else.  After the
    constructor the caller's array is as it was, and the destructor gives
    back the copy: memory is again what it was before the holder was
    built. *)
Theorem XrdSrvBuffer_copy_then_destroy (uninit : XrdSrvBuffer) (a bp : ptr)
    (sz : Z) (h : Heap) (s : list Z)
    (Hbp : bp ≠ NULL) (Hsz : 0 < sz) (Ha : a ≠ NULL)
    (Hfresh : chars h !! a = None) (Hsrc : chars h !! bp = Some s)
    (Hlen : (Z.to_nat sz ≤ length s)%nat) :
  ∃ b h', XrdSrvBuffer_ctor uninit a bp sz true h = Some (b, h') ∧
          fBuff b ≠ bp ∧
          chars h' !! bp = Some s ∧
          buffers h' = buffers h ∧
          XrdSrvBuffer_dtor b h' = Some (tt, h).
Proof.
  eexists _, _. split; [by apply XrdSrvBuffer_ctor_copy with (s := s)|].
  assert (Hne : a ≠ bp) by (intros ->; congruence).
  simpl. split; [done|]. split; [by rewrite lookup_insert_ne|].
  split; [done|].
  unfold XrdSrvBuffer_dtor, free. simpl.
  rewrite bool_decide_true by done. simpl.
  rewrite lookup_insert_eq. by rewrite set_chars_delete_insert.
Qed.

Lemma XrdSrvBuffer_copy_then_destroy_witness :
  ∃ b h', XrdSrvBuffer_ctor (mkXrdSrvBuffer 0 NULL NULL) 300 200 3 true
            one_holder_heap = Some (b, h') ∧
          XrdSrvBuffer_dtor b h' = Some (tt, one_holder_heap).
Proof.
  destruct (XrdSrvBuffer_copy_then_destroy (mkXrdSrvBuffer 0 NULL NULL)
              300 200 3 one_holder_heap [1; 2; 3; 4])
    as (b & h' & Hrun & _ & _ & _ & Hback);
    [done | lia | done | reflexivity | reflexivity | simpl; lia |].
  by exists b, h'.
Defined.

(** X2: a holder that does not copy takes the caller's array over.  This
    is the case for [dup] unset, and also for [dup] set with a size that
    is not positive.  The destructor frees the array of the caller; when
    that array is not a block in use the destructor has no defined
    result. *)
Theorem XrdSrvBuffer_adopt_owns (uninit : XrdSrvBuffer) (a bp : ptr)
    (sz : Z) (dup : bool) (h : Heap)
    (Hadopt : dup = false ∨ sz ≤ 0) (Hbp : bp ≠ NULL) :
  ∃ b, XrdSrvBuffer_ctor uninit a bp sz dup h = Some (b, h) ∧
       fBuff b = bp ∧
       (is_Some (chars h !! bp) →
        ∃ h', XrdSrvBuffer_dtor b h = Some (tt, h') ∧
              chars h' !! bp = None ∧
              (∀ q, q ≠ bp → chars h' !! q = chars h !! q)) ∧
       (chars h !! bp = None → XrdSrvBuffer_dtor b h = None).
Proof.
  eexists. split.
  { apply XrdSrvBuffer_ctor_adopt. destruct Hadopt; auto. }
  split; [done|]. unfold XrdSrvBuffer_dtor, free. simpl.
  rewrite bool_decide_true by done. split.
  - intros [s Hs]. rewrite Hs. eexists. split; [done|]. simpl.
    split; [apply lookup_delete_eq|].
    intros q Hq. by apply lookup_delete_ne.
  - by intros ->.
Qed.

Lemma XrdSrvBuffer_adopt_owns_witness :
  ∃ b, XrdSrvBuffer_ctor (mkXrdSrvBuffer 0 NULL NULL) NULL 200 0 true
         one_holder_heap = Some (b, one_holder_heap) ∧
       ∃ h', XrdSrvBuffer_dtor b one_holder_heap = Some (tt, h') ∧
             chars h' !! 200 = None.
Proof.
  destruct (XrdSrvBuffer_adopt_owns (mkXrdSrvBuffer 0 NULL NULL) NULL 200 0
              true one_holder_heap)
    as (b & Hrun & _ & Hfree & _); [right; lia | done |].
  exists b. split; [exact Hrun|].
  destruct Hfree as (h' & Hdtor & Hgone & _); [by eexists|].
  by exists h'.
Defined.

(** X3: when the allocation fails the constructor assigns [fMembuf] only.
    Size and buffer are what the storage of the object held, memory is
    unchanged, and the destructor does nothing. *)
Theorem XrdSrvBuffer_ctor_no_memory (uninit : XrdSrvBuffer) (bp : ptr)
    (sz : Z) (h : Heap) (Hbp : bp ≠ NULL) (Hsz : 0 < sz) :
  ∃ b, XrdSrvBuffer_ctor uninit NULL bp sz true h = Some (b, h) ∧
       fSize b = fSize uninit ∧ fBuff b = fBuff uninit ∧
       fMembuf b = NULL ∧
       XrdSrvBuffer_dtor b h = Some (tt, h).
Proof.
  eexists. split.
  - unfold XrdSrvBuffer_ctor. rewrite !bool_decide_true by done. simpl.
    reflexivity.
  - done.
Qed.

Lemma XrdSrvBuffer_ctor_no_memory_witness :
  ∃ b, XrdSrvBuffer_ctor (mkXrdSrvBuffer 9 NULL 77) NULL 200 3 true
         one_holder_heap = Some (b, one_holder_heap) ∧
       fSize b = 9 ∧ fBuff b = NULL.
Proof.
  destruct (XrdSrvBuffer_ctor_no_memory (mkXrdSrvBuffer 9 NULL 77) 200 3
              one_holder_heap) as (b & Hrun & Hsize & Hbuff & _);
    [done | lia |].
  by exists b.
Defined.

(** ** Deleting the buffered messages *)

Lemma delete_XrdSrvBuffer_exact (p : ptr) (h : Heap) (b : XrdSrvBuffer) :
  buffers h !! p = Some b →
  delete_XrdSrvBuffer p h
  = if bool_decide (fMembuf b ≠ NULL)
    then match chars h !! fMembuf b with
         | Some _ => Some (tt, {| chars := delete (fMembuf b) (chars h);
                                  buffers := delete p (buffers h) |})
         | None => None
         end
    else Some (tt, {| chars := chars h; buffers := delete p (buffers h) |}).
Proof.
  intros Hb. unfold delete_XrdSrvBuffer. rewrite Hb.
  unfold mbind, M_bind, XrdSrvBuffer_dtor.
  destruct (bool_decide (fMembuf b ≠ NULL)); [|done].
  unfold free. by destruct (chars h !! fMembuf b).
Qed.

(** X4: what [DeleteQueryNum()] and [DeleteStartMsg()] do to memory.  For
    a live holder with a live buffer, exactly the holder and its buffer
    are given back; every other object and array, and the other two
    message pointers of the proxy, are as they were. *)
Theorem Delete_buffered_message_frame (x : XrdProofServProxy) (h : Heap)
    (b : XrdSrvBuffer) (s : list Z) :
  (fQueryNum x ≠ NULL → buffers h !! fQueryNum x = Some b →
   fMembuf b ≠ NULL → chars h !! fMembuf b = Some s →
   DeleteQueryNum x h
   = Some (set_fQueryNum NULL x,
           {| chars := delete (fMembuf b) (chars h);
              buffers := delete (fQueryNum x) (buffers h) |})) ∧
  (fStartMsg x ≠ NULL → buffers h !! fStartMsg x = Some b →
   fMembuf b ≠ NULL → chars h !! fMembuf b = Some s →
   DeleteStartMsg x h
   = Some (set_fStartMsg NULL x,
           {| chars := delete (fMembuf b) (chars h);
              buffers := delete (fStartMsg x) (buffers h) |})).
Proof.
  split; intros Hp Hb Hm Hs.
  - unfold DeleteQueryNum, mbind, M_bind.
    rewrite bool_decide_true by done.
    rewrite (delete_XrdSrvBuffer_exact _ _ b Hb).
    by rewrite bool_decide_true, Hs by done.
  - unfold DeleteStartMsg, mbind, M_bind.
    rewrite bool_decide_true by done.
    rewrite (delete_XrdSrvBuffer_exact _ _ b Hb).
    by rewrite bool_decide_true, Hs by done.
Qed.

Lemma Delete_buffered_message_frame_witness :
  DeleteQueryNum proxy_with_query one_holder_heap
  = Some (empty_proxy, empty_heap) ∧
  DeleteStartMsg proxy_with_start one_holder_heap
  = Some (empty_proxy, empty_heap).
Proof.
  destruct (Delete_buffered_message_frame proxy_with_query one_holder_heap
              {| fSize := 4; fBuff := 200; fMembuf := 200 |} [1; 2; 3; 4])
    as [Hq _].
  destruct (Delete_buffered_message_frame proxy_with_start one_holder_heap
              {| fSize := 4; fBuff := 200; fMembuf := 200 |} [1; 2; 3; 4])
    as [_ Hs].
  split.
  - rewrite Hq by done. reflexivity.
  - rewrite Hs by done. reflexivity.
Defined.

(** X5: deleting twice is safe.  A second [DeleteQueryNum()] (or
    [DeleteStartMsg()]) after one that went through is defined and changes
    neither the proxy nor memory. *)
Theorem Delete_buffered_message_twice (x x' : XrdProofServProxy) (h h' : Heap) :
  (DeleteQueryNum x h = Some (x', h') → DeleteQueryNum x' h' = Some (x', h')) ∧
  (DeleteStartMsg x h = Some (x', h') → DeleteStartMsg x' h' = Some (x', h')).
Proof.
  split; intros Hrun.
  - apply DeleteQueryNum_inv in Hrun as [-> _]. by destruct x.
  - apply DeleteStartMsg_inv in Hrun as [-> _]. by destruct x.
Qed.

Lemma Delete_buffered_message_twice_witness :
  DeleteQueryNum empty_proxy empty_heap = Some (empty_proxy, empty_heap) ∧
  DeleteStartMsg empty_proxy empty_heap = Some (empty_proxy, empty_heap).
Proof.
  destruct (Delete_buffered_message_twice proxy_with_query empty_proxy
              one_holder_heap empty_heap) as [Hq _].
  destruct (Delete_buffered_message_twice proxy_with_start empty_proxy
              one_holder_heap empty_heap) as [_ Hs].
  split; [apply Hq | apply Hs]; reflexivity.
Defined.

(** X6: the proxy does not know when two of its message pointers are the
    same holder.  With one holder set both as query number and as start
    message, [DeleteQueryNum()] frees it and the [DeleteStartMsg()] that
    follows frees it again: it has no defined result. *)
Theorem Delete_shared_holder_undefined (p : ptr) (x x1 x2 x3 : XrdProofServProxy)
    (h h1 h2 h3 : Heap) (Hp : p ≠ NULL)
    (Hq : SetQueryNum p x h = Some (x1, h1))
    (Hs : SetStartMsg p x1 h1 = Some (x2, h2))
    (Hd : DeleteQueryNum x2 h2 = Some (x3, h3)) :
  StartMsg x3 = p ∧ buffers h3 !! p = None ∧ DeleteStartMsg x3 h3 = None.
Proof.
  injection Hq as <- <-. injection Hs as <- <-.
  apply DeleteQueryNum_inv in Hd as [-> Hgone]. simpl in Hgone.
  specialize (Hgone Hp).
  split; [done|]. split; [done|].
  unfold DeleteStartMsg, mbind, M_bind. simpl.
  rewrite bool_decide_true by done.
  unfold delete_XrdSrvBuffer. by rewrite Hgone.
Qed.

Lemma Delete_shared_holder_undefined_witness :
  DeleteStartMsg (set_fStartMsg 100 empty_proxy) empty_heap = None.
Proof.
  destruct (Delete_shared_holder_undefined 100 empty_proxy
              (set_fQueryNum 100 empty_proxy)
              (set_fStartMsg 100 (set_fQueryNum 100 empty_proxy))
              (set_fStartMsg 100 empty_proxy)
              one_holder_heap one_holder_heap one_holder_heap empty_heap)
    as (_ & _ & Hundef); [done | reflexivity | reflexivity | reflexivity |].
  exact Hundef.
Defined.

(** ** More on the worker pool *)

Lemma list_remove_push_back (w : ptr) (l : list ptr) :
  list_remove w (push_back w l) = list_remove w l.
Proof.
  rewrite !list_remove_filter. unfold push_back.
  rewrite filter_app, filter_cons_False by (intros Hne; by apply Hne).
  by rewrite filter_nil, app_nil_r.
Qed.

(** X7: [RemoveWorker(w)] undoes every [AddWorker(w)] made before it: the
    pool after [AddWorker(w)] and [RemoveWorker(w)] is the pool after
    [RemoveWorker(w)] alone, and it is the pool one started from when [w]
    was not in it. *)
Theorem RemoveWorker_after_AddWorker (x : XrdProofServProxy) (w : ptr) :
  RemoveWorker w (AddWorker w x) = RemoveWorker w x ∧
  (w ∉ fWorkers x → RemoveWorker w (AddWorker w x) = x).
Proof.
  assert (Hsame : RemoveWorker w (AddWorker w x) = RemoveWorker w x).
  { unfold RemoveWorker, AddWorker. simpl.
    by rewrite list_remove_push_back. }
  split; [done|]. intros Habsent. rewrite Hsame.
  unfold RemoveWorker. rewrite list_remove_absent by done.
  apply set_fWorkers_same.
Qed.

Lemma RemoveWorker_after_AddWorker_witness :
  RemoveWorker 9 (AddWorker 9 (AddWorker 7 empty_proxy)) = AddWorker 7 empty_proxy.
Proof.
  destruct (RemoveWorker_after_AddWorker (AddWorker 7 empty_proxy) 9)
    as [_ Hback].
  apply Hback. simpl. unfold push_back. simpl. intros Hin.
  apply list_elem_of_singleton in Hin. discriminate Hin.
Defined.

(** X8: [RemoveWorker(w)] touches [w] only.  The pool afterwards is the
    pool before with the entries equal to [w] left out, in the same
    order; every other worker is in it as often as before. *)
Theorem RemoveWorker_keeps_others (x : XrdProofServProxy) (w : ptr) :
  fWorkers (RemoveWorker w x) = filter (λ v, v ≠ w) (fWorkers x) ∧
  fWorkers (RemoveWorker w x) `sublist_of` fWorkers x ∧
  (∀ v, v ≠ w →
     occurrences v (fWorkers (RemoveWorker w x)) = occurrences v (fWorkers x)).
Proof.
  simpl. rewrite list_remove_filter.
  split; [done|]. split; [apply sublist_filter|].
  intros v Hne. unfold occurrences.
  induction (fWorkers x) as [|u l IH]; [done|].
  destruct (decide (u = w)) as [Hu|Hu].
  - rewrite (filter_cons_False (λ v, v ≠ w)) by (intros Hw; by apply Hw).
    rewrite (filter_cons_False (λ u, u = v) u) by congruence. done.
  - rewrite (filter_cons_True (λ v, v ≠ w)) by done.
    destruct (decide (u = v)) as [Huv|Huv].
    + rewrite !(filter_cons_True (λ u, u = v) u) by done. simpl. by rewrite IH.
    + rewrite !(filter_cons_False (λ u, u = v) u) by done. done.
Qed.

Lemma RemoveWorker_keeps_others_witness :
  fWorkers (RemoveWorker 5 (AddWorker 5 (AddWorker 7 (AddWorker 5 empty_proxy))))
  = [7] ∧
  occurrences 7
    (fWorkers (RemoveWorker 5
                 (AddWorker 5 (AddWorker 7 (AddWorker 5 empty_proxy))))) = 1%nat.
Proof.
  destruct (RemoveWorker_keeps_others
              (AddWorker 5 (AddWorker 7 (AddWorker 5 empty_proxy))) 5)
    as (Hpool & _ & Hothers).
  split; [rewrite Hpool; reflexivity|].
  rewrite (Hothers 7) by discriminate. reflexivity.
Defined.

Lemma list_remove_comm (v w : ptr) (l : list ptr) :
  list_remove v (list_remove w l) = list_remove w (list_remove v l).
Proof.
  induction l as [|u l IH]; [done|]. simpl.
  destruct (decide (u = w)) as [Hw|Hw], (decide (u = v)) as [Hv|Hv]; simpl.
  - done.
  - by rewrite decide_True.
  - by rewrite decide_True.
  - rewrite !decide_False by done. by rewrite IH.
Qed.

(** X9: [RemoveWorker] can be repeated and reordered: removing [w] twice
    is removing it once, and removing [v] and [w] gives the same pool in
    either order. *)
Theorem RemoveWorker_idempotent_commutes (x : XrdProofServProxy) (v w : ptr) :
  RemoveWorker w (RemoveWorker w x) = RemoveWorker w x ∧
  RemoveWorker v (RemoveWorker w x) = RemoveWorker w (RemoveWorker v x).
Proof.
  split.
  - unfold RemoveWorker. simpl.
    by rewrite (list_remove_absent w (list_remove w _)) by apply list_remove_gone.
  - unfold RemoveWorker. simpl. by rewrite list_remove_comm.
Qed.

(** ** The parent handle *)

(** X10: [IsParent(p)] compares [p] with the connection of the parent
    handle.  A proxy without parent answers no for every [p], the null
    connection included; with a parent set it answers yes exactly for the
    connection the handle holds; and once the parent handle is reset it
    answers yes for the null connection and for no other. *)
Theorem IsParent_follows_handle (ids : gmap Z XrdClientID)
    (x : XrdProofServProxy) (cid : ptr) (c : XrdClientID)
    (Hcid : cid ≠ NULL) (Hc : ids !! cid = Some c) :
  (∀ p, IsParent ids p (SetParent NULL x) = Some false) ∧
  (∀ p, IsParent ids p (SetParent cid x) = Some (bool_decide (fP c = p))) ∧
  (∀ p, IsParent (alter XrdClientID_Reset cid ids) p (SetParent cid x)
        = Some (bool_decide (NULL = p))).
Proof.
  unfold IsParent. simpl. split; [done|].
  rewrite bool_decide_true by done. split; intros p.
  - by rewrite Hc.
  - by rewrite lookup_alter_eq, Hc.
Qed.

Lemma IsParent_follows_handle_witness :
  IsParent {[ 50 := XrdClientID_ctor 11 1 ]} 11 (SetParent 50 empty_proxy)
  = Some true ∧
  IsParent (alter XrdClientID_Reset 50 {[ 50 := XrdClientID_ctor 11 1 ]}) 11
    (SetParent 50 empty_proxy) = Some false ∧
  IsParent (alter XrdClientID_Reset 50 {[ 50 := XrdClientID_ctor 11 1 ]}) NULL
    (SetParent 50 empty_proxy) = Some true.
Proof.
  destruct (IsParent_follows_handle {[ 50 := XrdClientID_ctor 11 1 ]}
              empty_proxy 50 (XrdClientID_ctor 11 1))
    as (_ & Hset & Hreset); [done | reflexivity |].
  split; [apply Hset|]. split; apply Hreset.
Defined.

(** ** The ping semaphore *)

(** X11: [CreatePingSem()] followed by [DeletePingSem()] leaves the
    semaphores that existed before and a null [PingSem()]; a second
    [DeletePingSem()] changes nothing. *)
Theorem PingSem_create_delete (a : ptr) (x : XrdProofServProxy)
    (sems : gmap Z Z) (Ha : a ≠ NULL) (Hfresh : sems !! a = None) :
  ∃ x1 sems1,
    CreatePingSem a x sems = Some (x1, sems1) ∧ PingSem x1 = a ∧
    sems1 !! a = Some 0 ∧
    DeletePingSem x1 sems1 = Some (set_fPingSem NULL x, sems) ∧
    DeletePingSem (set_fPingSem NULL x) sems = Some (set_fPingSem NULL x, sems).
Proof.
  eexists _, _. split.
  { unfold CreatePingSem. by rewrite decide_True. }
  split; [done|]. split; [apply lookup_insert_eq|].
  unfold DeletePingSem. simpl. split; [|done].
  rewrite bool_decide_true, lookup_insert_eq by done.
  by rewrite delete_insert_id.
Qed.

Lemma PingSem_create_delete_witness :
  ∃ x1 sems1,
    CreatePingSem 40 empty_proxy ∅ = Some (x1, sems1) ∧
    DeletePingSem x1 sems1 = Some (empty_proxy, ∅).
Proof.
  destruct (PingSem_create_delete 40 empty_proxy ∅)
    as (x1 & sems1 & Hcreate & _ & _ & Hdelete & _); [done | reflexivity |].
  by exists x1, sems1.
Defined.

(** X12: [CreatePingSem()] does not look at the semaphore it replaces.
    After two calls the proxy holds the second semaphore; the first is
    still allocated, and stays so after [DeletePingSem()], with no pointer
    of the proxy left that designates it. *)
Theorem PingSem_create_twice_leaks (a1 a2 : ptr) (x : XrdProofServProxy)
    (sems : gmap Z Z) (Ha1 : a1 ≠ NULL) (Ha2 : a2 ≠ NULL) (Hne : a1 ≠ a2)
    (Hfresh1 : sems !! a1 = None) (Hfresh2 : sems !! a2 = None) :
  ∃ x1 sems1 x2 sems2 x3 sems3,
    CreatePingSem a1 x sems = Some (x1, sems1) ∧
    CreatePingSem a2 x1 sems1 = Some (x2, sems2) ∧
    PingSem x2 = a2 ∧ is_Some (sems2 !! a1) ∧
    DeletePingSem x2 sems2 = Some (x3, sems3) ∧
    PingSem x3 = NULL ∧ is_Some (sems3 !! a1) ∧ sems3 !! a2 = None.
Proof.
  eexists _, _, _, _, _, _. split.
  { unfold CreatePingSem. by rewrite decide_True. }
  split.
  { unfold CreatePingSem. rewrite decide_True; [done|].
    split; [done|]. by rewrite lookup_insert_ne. }
  split; [done|]. split.
  { rewrite lookup_insert_ne, lookup_insert_eq by done. by eexists. }
  split.
  { unfold DeletePingSem. simpl.
    by rewrite bool_decide_true, lookup_insert_eq by done. }
  split; [done|]. split.
  - rewrite lookup_delete_ne, lookup_insert_ne, lookup_insert_eq by done.
    by eexists.
  - apply lookup_delete_eq.
Qed.

Lemma PingSem_create_twice_leaks_witness :
  ∃ x1 sems1 x2 sems2 x3 sems3,
    CreatePingSem 40 empty_proxy ∅ = Some (x1, sems1) ∧
    CreatePingSem 41 x1 sems1 = Some (x2, sems2) ∧
    DeletePingSem x2 sems2 = Some (x3, sems3) ∧
    PingSem x3 = NULL ∧ is_Some (sems3 !! 40).
Proof.
  destruct (PingSem_create_twice_leaks 40 41 empty_proxy ∅)
    as (x1 & sems1 & x2 & sems2 & x3 & sems3 & H1 & H2 & _ & _ & H3 & H4 & H5 & _);
    [done | done | done | reflexivity | reflexivity |].
  by exists x1, sems1, x2, sems2, x3, sems3.
Defined.

(** * Properties of RooRealSumFunc *)

(** ** The list constructor *)

Lemma add_pairs_exact {D} (ownName : string) (inFuncList : list (RooAbsArg D))
    (i : nat) (rest fl cl : list (RooAbsArg D)) (log : list ctor_message) :
  (i + length rest ≤ length inFuncList)%nat →
  add_pairs ownName inFuncList i rest fl cl log
  = Some (fl ++ (filter (λ fc, both_real fc = true)
                        (zip (drop i inFuncList) rest)).*1,
          cl ++ (filter (λ fc, both_real fc = true)
                        (zip (drop i inFuncList) rest)).*2,
          log ++ zip (drop i inFuncList) rest ≫= pair_warning ownName).
Proof.
  revert i fl cl log.
  induction rest as [|coef rest IH]; intros i fl cl log Hlen.
  - simpl. rewrite zip_with_nil_r. simpl. by rewrite !app_nil_r.
  - simpl in Hlen.
    destruct (lookup_lt_is_Some_2 inFuncList i) as [func Hfunc]; [lia|].
    cbn [add_pairs]. rewrite Hfunc, (drop_S _ _ _ Hfunc).
    change (zip (func :: drop (S i) inFuncList) (coef :: rest))
      with ((func, coef) :: zip (drop (S i) inFuncList) rest).
    rewrite bind_cons.
    assert (Hboth : both_real (func, coef)
                    = isRooAbsReal coef && isRooAbsReal func) by done.
    unfold pair_warning at 1. cbn [fst snd].
    destruct (isRooAbsReal coef), (isRooAbsReal func); cbn [negb];
      rewrite IH by lia;
      first [ rewrite !filter_cons_True by (by rewrite Hboth)
            | rewrite !filter_cons_False by (by rewrite Hboth) ];
      cbn [fmap list_fmap fst snd app]; by rewrite <- ?app_assoc.
Qed.

Lemma add_pairs_short {D} (ownName : string) (inFuncList : list (RooAbsArg D))
    (i : nat) (rest fl cl : list (RooAbsArg D)) (log : list ctor_message) :
  (i ≤ length inFuncList)%nat →
  (length inFuncList < i + length rest)%nat →
  add_pairs ownName inFuncList i rest fl cl log = None.
Proof.
  revert i fl cl log.
  induction rest as [|coef rest IH]; intros i fl cl log Hi Hlen; simpl in *.
  - lia.
  - destruct (inFuncList !! i) as [func|] eqn:Hfunc; [|done].
    apply lookup_lt_Some in Hfunc.
    destruct (negb (isRooAbsReal coef)); [apply IH; lia|].
    destruct (negb (isRooAbsReal func)); apply IH; lia.
Qed.

Lemma add_pairs_from_start {D} (ownName : string)
    (fs cs : list (RooAbsArg D)) (log : list ctor_message) :
  (length cs ≤ length fs)%nat →
  add_pairs ownName fs 0 cs [] [] log
  = Some ((kept_pairs fs cs).*1, (kept_pairs fs cs).*2,
          log ++ pair_warnings ownName fs cs).
Proof.
  intros Hlen. rewrite add_pairs_exact by (simpl; lia).
  by rewrite drop_0.
Qed.

Lemma ctor_same_size {D} (NDEBUG : bool) (name : option string)
    (fs cs : list (RooAbsArg D)) :
  length fs = length cs →
  RooRealSumFunc_ctor NDEBUG name fs cs
  = (pair_warnings (default "" name) fs cs,
     Returned {| _haveLastCoef := true;
                 _funcList := (kept_pairs fs cs).*1;
                 _coefList := (kept_pairs fs cs).*2;
                 _doFloor := false |}).
Proof.
  intros Hlen. unfold RooRealSumFunc_ctor.
  rewrite bool_decide_true by (by right). cbn [negb andb].
  rewrite add_pairs_from_start by lia.
  by rewrite bool_decide_false by lia.
Qed.

Lemma ctor_one_more {D} (NDEBUG : bool) (name : option string)
    (fs cs : list (RooAbsArg D)) (f : RooAbsArg D) :
  length fs = S (length cs) → last fs = Some f →
  RooRealSumFunc_ctor NDEBUG name fs cs
  = if isRooAbsReal f
    then (pair_warnings (default "" name) fs cs,
          Returned {| _haveLastCoef := false;
                      _funcList := (kept_pairs fs cs).*1 ++ [f];
                      _coefList := (kept_pairs fs cs).*2;
                      _doFloor := false |})
    else (pair_warnings (default "" name) fs cs
            ++ [E_last_func (default "" name) (default "" (GetName f))],
          Thrown).
Proof.
  intros Hlen Hlast. unfold RooRealSumFunc_ctor.
  rewrite bool_decide_true by (by left). cbn [negb andb].
  rewrite add_pairs_from_start by lia.
  rewrite bool_decide_true by done.
  rewrite last_lookup in Hlast.
  replace (length fs - 1)%nat with (pred (length fs)) by lia.
  rewrite Hlast. by destruct (isRooAbsReal f).
Qed.

(** X13: the list constructor with as many functions as coefficients, or
    one more.  It keeps the pairs of which both the function and the
    coefficient are [RooAbsReal], in order, and writes one warning for
    each pair it leaves out.  With one function more, that function goes
    last if it is a [RooAbsReal]; otherwise the constructor throws, after
    the pairs were looked at. *)
Theorem RooRealSumFunc_ctor_consistent {D} (NDEBUG : bool)
    (name : option string) (fs cs : list (RooAbsArg D)) :
  (length fs = length cs →
   RooRealSumFunc_ctor NDEBUG name fs cs
   = (pair_warnings (default "" name) fs cs,
      Returned {| _haveLastCoef := true;
                  _funcList := (kept_pairs fs cs).*1;
                  _coefList := (kept_pairs fs cs).*2;
                  _doFloor := false |})) ∧
  (∀ f, length fs = S (length cs) → last fs = Some f →
     RooRealSumFunc_ctor NDEBUG name fs cs
     = if isRooAbsReal f
       then (pair_warnings (default "" name) fs cs,
             Returned {| _haveLastCoef := false;
                         _funcList := (kept_pairs fs cs).*1 ++ [f];
                         _coefList := (kept_pairs fs cs).*2;
                         _doFloor := false |})
       else (pair_warnings (default "" name) fs cs
               ++ [E_last_func (default "" name) (default "" (GetName f))],
             Thrown)).
Proof.
  split.
  - apply ctor_same_size.
  - intros f. apply ctor_one_more.
Qed.

Lemma RooRealSumFunc_ctor_consistent_witness :
  RooRealSumFunc_ctor false (Some "sum")
    [real_arg "f1" 2; other_arg "g"; real_arg "f3" 5]
    [real_arg "c1" 3; real_arg "c2" 4]
  = ([W_func_ignored "sum" "g"],
     Returned {| _haveLastCoef := false;
                 _funcList := [real_arg "f1" 2; real_arg "f3" 5];
                 _coefList := [real_arg "c1" 3]; _doFloor := false |}) ∧
  RooRealSumFunc_ctor false (Some "sum")
    [real_arg "f1" 2; other_arg "g"] [real_arg "c1" 3]
  = ([E_last_func "sum" "g"], Thrown) ∧
  RooRealSumFunc_ctor false (Some "sum")
    [real_arg "f1" 2; real_arg "f2" 5] [other_arg "c"; real_arg "c2" 4]
  = ([W_coef_ignored "sum" "c"],
     Returned {| _haveLastCoef := true;
                 _funcList := [real_arg "f2" 5];
                 _coefList := [real_arg "c2" 4]; _doFloor := false |}).
Proof.
  split; [|split].
  - destruct (RooRealSumFunc_ctor_consistent false (Some "sum")
                [real_arg "f1" 2; other_arg "g"; real_arg "f3" 5]
                [real_arg "c1" 3; real_arg "c2" 4]) as [_ Hmore].
    rewrite (Hmore (real_arg "f3" 5)) by reflexivity. reflexivity.
  - destruct (RooRealSumFunc_ctor_consistent false (Some "sum")
                [real_arg "f1" 2; other_arg "g"] [real_arg "c1" 3])
      as [_ Hmore].
    rewrite (Hmore (other_arg "g")) by reflexivity. reflexivity.
  - destruct (RooRealSumFunc_ctor_consistent false (Some "sum")
                [real_arg "f1" 2; real_arg "f2" 5]
                [other_arg "c"; real_arg "c2" 4]) as [Hsame _].
    rewrite Hsame by reflexivity. reflexivity.
Defined.

Lemma kept_pairs_real {D} (fs cs : list (RooAbsArg D)) :
  Forall (λ a, isRooAbsReal a = true) (kept_pairs fs cs).*1 ∧
  Forall (λ a, isRooAbsReal a = true) (kept_pairs fs cs).*2 ∧
  length (kept_pairs fs cs).*1 = length (kept_pairs fs cs).*2.
Proof.
  unfold kept_pairs. rewrite !length_fmap. split; [|split; [|done]].
  - apply Forall_fmap, Forall_forall. intros [f c] Hin.
    apply list_elem_of_filter in Hin as [Hboth _].
    unfold both_real in Hboth. simpl in *.
    by apply andb_true_iff in Hboth as [_ ?].
  - apply Forall_fmap, Forall_forall. intros [f c] Hin.
    apply list_elem_of_filter in Hin as [Hboth _].
    unfold both_real in Hboth. simpl in *.
    by apply andb_true_iff in Hboth as [? _].
Qed.

Lemma RooRealSumFunc_ctor_surplus {D} (name : option string)
    (fs cs : list (RooAbsArg D)) :
  (S (length cs) < length fs)%nat →
  RooRealSumFunc_ctor true name fs cs
  = (E_inconsistent (default "" name) :: pair_warnings (default "" name) fs cs,
     Returned {| _haveLastCoef := true;
                 _funcList := (kept_pairs fs cs).*1;
                 _coefList := (kept_pairs fs cs).*2;
                 _doFloor := false |}).
Proof.
  intros Hlen. unfold RooRealSumFunc_ctor.
  rewrite bool_decide_false by lia. cbn [negb andb].
  rewrite add_pairs_from_start by lia.
  by rewrite bool_decide_false by lia.
Qed.

Lemma ctor_returned {D} (NDEBUG : bool)
    (name : option string) (fs cs : list (RooAbsArg D))
    (log : list ctor_message) (self : RooRealSumFunc D)
    (Hctor : RooRealSumFunc_ctor NDEBUG name fs cs = (log, Returned self)) :
  sizes_agree self ∧
  Forall (λ a, isRooAbsReal a = true) (_funcList self) ∧
  Forall (λ a, isRooAbsReal a = true) (_coefList self) ∧
  _doFloor self = false ∧
  _haveLastCoef self = negb (bool_decide (length fs = S (length cs))).
Proof.
  destruct (kept_pairs_real fs cs) as (Hf & Hc & Hlen).
  destruct (decide (length fs = length cs)) as [Hsame|Hdiff].
  { rewrite ctor_same_size in Hctor by done. injection Hctor as _ <-.
    unfold sizes_agree. simpl.
    rewrite bool_decide_false by lia. repeat split; [lia|done|done]. }
  destruct (decide (length fs = S (length cs))) as [Hmore|Hdiff'].
  { destruct (last fs) as [f|] eqn:Hlast.
    2: { apply last_None in Hlast. subst fs. simpl in Hmore. lia. }
    rewrite (ctor_one_more _ _ _ _ f) in Hctor by done.
    destruct (isRooAbsReal f) eqn:Hreal; [|discriminate Hctor].
    injection Hctor as _ <-. unfold sizes_agree. simpl.
    rewrite bool_decide_true by done. rewrite length_app. simpl.
    repeat split; [lia| |done].
    apply Forall_app. split; [done|]. by apply Forall_singleton. }
  destruct NDEBUG.
  2: { unfold RooRealSumFunc_ctor in Hctor.
       rewrite bool_decide_false in Hctor by lia. discriminate Hctor. }
  destruct (decide (length fs < length cs)%nat) as [Hshort|Hlong].
  { unfold RooRealSumFunc_ctor in Hctor.
    rewrite bool_decide_false in Hctor by lia. cbn [negb andb] in Hctor.
    rewrite add_pairs_short in Hctor by (simpl; lia). discriminate Hctor. }
  rewrite RooRealSumFunc_ctor_surplus in Hctor by lia.
  injection Hctor as _ <-. unfold sizes_agree. simpl.
  rewrite bool_decide_false by lia. repeat split; [lia|done|done].
Qed.


(** X14: whenever the list constructor returns, with or without
    assertions, the object has one function per coefficient, and one more
    when the last coefficient is left to be computed; every function and
    every coefficient it holds is a [RooAbsReal]; the floor is off. *)
Theorem RooRealSumFunc_ctor_sizes_agree {D} (NDEBUG : bool)
    (name : option string) (fs cs : list (RooAbsArg D))
    (log : list ctor_message) (self : RooRealSumFunc D)
    (Hctor : RooRealSumFunc_ctor NDEBUG name fs cs = (log, Returned self)) :
  sizes_agree self ∧
  Forall (λ a, isRooAbsReal a = true) (_funcList self) ∧
  Forall (λ a, isRooAbsReal a = true) (_coefList self) ∧
  _doFloor self = false ∧
  _haveLastCoef self = negb (bool_decide (length fs = S (length cs))).
Proof. exact (ctor_returned NDEBUG name fs cs log self Hctor). Qed.

Lemma RooRealSumFunc_ctor_sizes_agree_witness :
  sizes_agree {| _haveLastCoef := false;
                 _funcList := [real_arg "f1" 2; real_arg "f3" 5];
                 _coefList := [real_arg "c1" 3]; _doFloor := false |}.
Proof.
  assert (Hctor : RooRealSumFunc_ctor false (Some "sum")
            [real_arg "f1" 2; other_arg "g"; real_arg "f3" 5]
            [real_arg "c1" 3; real_arg "c2" 4]
          = ([W_func_ignored "sum" "g"],
             Returned {| _haveLastCoef := false;
                         _funcList := [real_arg "f1" 2; real_arg "f3" 5];
                         _coefList := [real_arg "c1" 3];
                         _doFloor := false |})) by reflexivity.
  by destruct (RooRealSumFunc_ctor_sizes_agree _ _ _ _ _ _ Hctor) as [Hsizes _].
Defined.

(** X15: the list constructor with sizes that fit neither rule.  With
    assertions it writes the error and aborts.  Without them it goes on:
    with too few functions it reads past the end of the function list;
    with too many it pairs the coefficients with the first functions,
    takes the last coefficient as given and leaves the other functions
    out. *)
Theorem RooRealSumFunc_ctor_inconsistent {D} (name : option string)
    (fs cs : list (RooAbsArg D))
    (Hne : length fs ≠ length cs) (Hne' : length fs ≠ S (length cs)) :
  RooRealSumFunc_ctor false name fs cs
  = ([E_inconsistent (default "" name)], Aborted) ∧
  ((length fs < length cs)%nat →
   RooRealSumFunc_ctor true name fs cs
   = ([E_inconsistent (default "" name)], NoResult)) ∧
  ((length cs < length fs)%nat →
   RooRealSumFunc_ctor true name fs cs
   = (E_inconsistent (default "" name) :: pair_warnings (default "" name) fs cs,
      Returned {| _haveLastCoef := true;
                  _funcList := (kept_pairs fs cs).*1;
                  _coefList := (kept_pairs fs cs).*2;
                  _doFloor := false |})).
Proof.
  split; [|split].
  - unfold RooRealSumFunc_ctor. by rewrite bool_decide_false by lia.
  - intros Hshort. unfold RooRealSumFunc_ctor.
    rewrite bool_decide_false by lia. cbn [negb andb].
    by rewrite add_pairs_short by (simpl; lia).
  - intros Hlong. apply RooRealSumFunc_ctor_surplus. lia.
Qed.

Lemma RooRealSumFunc_ctor_inconsistent_witness :
  RooRealSumFunc_ctor false None
    [real_arg "f1" 2; real_arg "f2" 5; real_arg "f3" 7] [real_arg "c1" 3]
  = ([E_inconsistent ""], Aborted) ∧
  RooRealSumFunc_ctor true None
    [real_arg "f1" 2; real_arg "f2" 5; real_arg "f3" 7] [real_arg "c1" 3]
  = ([E_inconsistent ""],
     Returned {| _haveLastCoef := true; _funcList := [real_arg "f1" 2];
                 _coefList := [real_arg "c1" 3]; _doFloor := false |}).
Proof.
  destruct (RooRealSumFunc_ctor_inconsistent None
              [real_arg "f1" 2; real_arg "f2" 5; real_arg "f3" 7]
              [real_arg "c1" 3]) as (Habort & _ & Hlong);
    [simpl; lia | simpl; lia |].
  split; [exact Habort|]. rewrite Hlong by (simpl; lia). reflexivity.
Defined.

Lemma kept_pairs_all_real {D} (fs cs : list (RooAbsArg D)) :
  Forall (λ a, isRooAbsReal a = true) fs →
  Forall (λ a, isRooAbsReal a = true) cs →
  kept_pairs fs cs = zip fs cs ∧ ∀ n, pair_warnings n fs cs = [].
Proof.
  intros Hfs. revert cs.
  induction Hfs as [|f fs Hf Hfs IH]; intros cs Hcs.
  - done.
  - destruct Hcs as [|c cs Hc Hcs]; [done|].
    destruct (IH cs Hcs) as [Hkept Hwarn].
    unfold kept_pairs, pair_warnings in *. simpl. split.
    + rewrite filter_cons_True by (unfold both_real; simpl; by rewrite Hf, Hc).
      by rewrite Hkept.
    + intros n. unfold pair_warning at 1. simpl. rewrite Hf, Hc. simpl.
      apply Hwarn.
Qed.

(** X16: when every function and every coefficient is a [RooAbsReal] and
    the sizes fit, the constructor takes both lists over as they are and
    writes nothing; the last coefficient is taken as given exactly when
    there are as many coefficients as functions. *)
Theorem RooRealSumFunc_ctor_all_real {D} (NDEBUG : bool)
    (name : option string) (fs cs : list (RooAbsArg D))
    (Hfs : Forall (λ a, isRooAbsReal a = true) fs)
    (Hcs : Forall (λ a, isRooAbsReal a = true) cs)
    (Hlen : length fs = length cs ∨ length fs = S (length cs)) :
  RooRealSumFunc_ctor NDEBUG name fs cs
  = ([], Returned {| _haveLastCoef := bool_decide (length fs = length cs);
                     _funcList := fs; _coefList := cs; _doFloor := false |}).
Proof.
  destruct (kept_pairs_all_real fs cs Hfs Hcs) as [Hkept Hwarn].
  destruct Hlen as [Hlen|Hlen].
  - rewrite ctor_same_size, Hkept, Hwarn by done.
    rewrite fst_zip, snd_zip by lia. by rewrite bool_decide_true.
  - destruct (last fs) as [f|] eqn:Hlast.
    2: { apply last_None in Hlast. subst fs. simpl in Hlen. lia. }
    rewrite (ctor_one_more _ _ _ _ f), Hkept, Hwarn by done.
    apply last_Some in Hlast as [fs' ->].
    rewrite length_app in Hlen. simpl in Hlen.
    apply Forall_app in Hfs as [_ Hf].
    apply Forall_cons_1 in Hf as [Hf _]. rewrite Hf. rewrite zip_with_app_l.
    rewrite drop_ge by lia. rewrite zip_with_nil_r, app_nil_r.
    rewrite take_ge by lia.
    rewrite fst_zip, snd_zip by lia.
    by rewrite bool_decide_false by (rewrite length_app; simpl; lia).
Qed.

Lemma RooRealSumFunc_ctor_all_real_witness :
  RooRealSumFunc_ctor false (Some "sum")
    [real_arg "f1" 2; real_arg "f2" 5] [real_arg "c1" 3]
  = ([], Returned (RooRealSumFunc_pair (real_arg "f1" 2) (real_arg "f2" 5)
                     (real_arg "c1" 3))).
Proof.
  rewrite RooRealSumFunc_ctor_all_real.
  - reflexivity.
  - repeat constructor.
  - repeat constructor.
  - right. reflexivity.
Defined.

(** ** evaluate *)

Lemma evaluate_loop_rest {D} `{DoubleOps D} (coefs funcs : list (RooAbsArg D))
    (value lastCoef value' lastCoef' : D) (rest : list (RooAbsArg D)) :
  evaluate_loop coefs funcs value lastCoef = Some (value', lastCoef', rest) →
  rest = drop (length coefs) funcs.
Proof.
  revert funcs value lastCoef.
  induction coefs as [|coef coefs IH]; intros funcs value lastCoef Hloop.
  - simpl in Hloop. injection Hloop as _ _ <-. by rewrite drop_0.
  - simpl in Hloop. destruct (d_nonzero (getVal coef)).
    + destruct funcs as [|func funcs]; [done|]. simpl in *.
      by apply IH in Hloop.
    + apply IH in Hloop. rewrite Hloop.
      destruct funcs; simpl; [by rewrite drop_nil|done].
Qed.

Lemma evaluate_loop_defined {D} `{DoubleOps D} (coefs funcs : list (RooAbsArg D))
    (value lastCoef : D) :
  (length coefs ≤ length funcs)%nat →
  is_Some (evaluate_loop coefs funcs value lastCoef).
Proof.
  revert funcs value lastCoef.
  induction coefs as [|coef coefs IH]; intros funcs value lastCoef Hlen.
  - by eexists.
  - destruct funcs as [|func funcs]; simpl in Hlen; [lia|]. simpl.
    destruct (d_nonzero (getVal coef)); apply IH; lia.
Qed.

(** X17: [evaluate] has a result on every object whose sizes agree: it
    never looks into a function that is not there.  This holds for every
    object the list constructor returns. *)
Theorem evaluate_defined {D} `{DoubleOps D} (doFloorGlobal : bool)
    (self : RooRealSumFunc D) (Hsizes : sizes_agree self) :
  is_Some (evaluate doFloorGlobal self).
Proof.
  unfold sizes_agree in Hsizes. unfold evaluate.
  destruct (evaluate_loop_defined (_coefList self) (_funcList self)
              d_zero d_one) as [[[value lastCoef] rest] Hloop]; [lia|].
  rewrite Hloop. apply evaluate_loop_rest in Hloop as ->.
  destruct (_haveLastCoef self); simpl; [by eexists|].
  destruct (drop (length (_coefList self)) (_funcList self))
    as [|func rest] eqn:Hdrop.
  - apply (f_equal length) in Hdrop. rewrite length_drop in Hdrop.
    simpl in Hdrop. lia.
  - simpl. by eexists.
Qed.

Lemma evaluate_defined_witness :
  is_Some (evaluate false
             {| _haveLastCoef := false;
                _funcList := [real_arg "f1" 2; real_arg "f3" 5];
                _coefList := [real_arg "c1" 3]; _doFloor := false |}).
Proof.
  apply evaluate_defined.
  assert (Hctor : RooRealSumFunc_ctor false (Some "sum")
            [real_arg "f1" 2; other_arg "g"; real_arg "f3" 5]
            [real_arg "c1" 3; real_arg "c2" 4]
          = ([W_func_ignored "sum" "g"],
             Returned {| _haveLastCoef := false;
                         _funcList := [real_arg "f1" 2; real_arg "f3" 5];
                         _coefList := [real_arg "c1" 3];
                         _doFloor := false |})) by reflexivity.
  by destruct (ctor_returned _ _ _ _ _ _ Hctor) as [Hsizes _].
Defined.

(** X18: [evaluate] on an object that leaves the last coefficient to be
    computed and has no function for it has no defined result: after the
    loop it looks into a null function.  The object made by the
    constructor that takes a name and a title only is such an object. *)
Theorem evaluate_without_last_function {D} `{DoubleOps D}
    (doFloorGlobal : bool) (self : RooRealSumFunc D)
    (Hlast : _haveLastCoef self = false)
    (Hfew : (length (_funcList self) ≤ length (_coefList self))%nat) :
  evaluate doFloorGlobal self = None.
Proof.
  unfold evaluate.
  destruct (evaluate_loop (_coefList self) (_funcList self) d_zero d_one)
    as [[[value lastCoef] rest]|] eqn:Hloop; [|done].
  apply evaluate_loop_rest in Hloop as ->.
  rewrite Hlast. simpl. by rewrite drop_ge by lia.
Qed.

Lemma evaluate_without_last_function_witness :
  evaluate false (RooRealSumFunc_named (D := Z)) = None.
Proof.
  apply evaluate_without_last_function; [reflexivity | simpl; lia].
Defined.

(** X19: the floor.  With [_doFloor] or [_doFloorGlobal] set, [evaluate]
    returns no value that is less than zero (zero itself not being less
    than zero); the static flag acts as the flag of the object does. *)
Theorem evaluate_floor {D} `{DoubleOps D} (doFloorGlobal : bool)
    (self : RooRealSumFunc D) (value : D) (warnings : list D)
    (Hzero : d_lt d_zero d_zero = false)
    (Hfloor : _doFloor self || doFloorGlobal = true)
    (Heval : evaluate doFloorGlobal self = Some (value, warnings)) :
  d_lt value d_zero = false ∧
  evaluate true self = Some (value, warnings) ∧
  evaluate false {| _haveLastCoef := _haveLastCoef self;
                    _funcList := _funcList self;
                    _coefList := _coefList self; _doFloor := true |}
  = Some (value, warnings).
Proof.
  unfold evaluate in *. simpl.
  destruct (evaluate_loop (_coefList self) (_funcList self) d_zero d_one)
    as [[[v lastCoef] rest]|]; [|done].
  destruct (if negb (_haveLastCoef self) then _ else _) as [[v' w]|]; [|done].
  rewrite Hfloor in Heval. rewrite orb_true_r, !andb_true_r in *. simpl.
  injection Heval as <- <-.
  destruct (d_lt v' d_zero) eqn:Hneg; by rewrite ?Hzero, ?Hneg.
Qed.

(** One function of value -5 with the coefficient 1, the coefficient
    taken as given. *)
Lemma evaluate_floor_witness :
  evaluate false {| _haveLastCoef := true; _funcList := [real_arg "f" (-5)];
                    _coefList := [real_arg "c" 1]; _doFloor := false |}
  = Some (-5, []) ∧
  evaluate true {| _haveLastCoef := true; _funcList := [real_arg "f" (-5)];
                   _coefList := [real_arg "c" 1]; _doFloor := false |}
  = Some (0, []).
Proof.
  split; [reflexivity|].
  pose proof (evaluate_floor (D := Z) true
                {| _haveLastCoef := true; _funcList := [real_arg "f" (-5)];
                   _coefList := [real_arg "c" 1]; _doFloor := false |}
                0 [] eq_refl eq_refl eq_refl) as (_ & Hglobal & _).
  exact Hglobal.
Defined.

Lemma evaluate_loop_skip_zero {D} `{DoubleOps D}
    (cs1 cs2 fs1 fs2 : list (RooAbsArg D)) (c f : RooAbsArg D)
    (value lastCoef : D) :
  length fs1 = length cs1 → d_nonzero (getVal c) = false →
  evaluate_loop (cs1 ++ c :: cs2) (fs1 ++ f :: fs2) value lastCoef
  = evaluate_loop (cs1 ++ cs2) (fs1 ++ fs2) value lastCoef.
Proof.
  intros Hlen Hzero. revert fs1 Hlen value lastCoef.
  induction cs1 as [|c1 cs1 IH]; intros fs1 Hlen value lastCoef.
  - destruct fs1; [|done]. simpl. by rewrite Hzero.
  - destruct fs1 as [|f1 fs1]; [done|]. simpl in *.
    injection Hlen as Hlen.
    destruct (d_nonzero (getVal c1)); by rewrite IH.
Qed.

(** X20: a coefficient of value zero switches its function off.  An
    object with such a pair evaluates as the object without the pair
    does: the function is not looked into, nothing is added and nothing
    is taken from the last coefficient. *)
Theorem evaluate_skips_zero_coefficient {D} `{DoubleOps D}
    (doFloorGlobal : bool) (haveLastCoef doFloor : bool)
    (cs1 cs2 fs1 fs2 : list (RooAbsArg D)) (c f : RooAbsArg D)
    (Hlen : length fs1 = length cs1)
    (Hzero : d_nonzero (getVal c) = false) :
  evaluate doFloorGlobal
    {| _haveLastCoef := haveLastCoef; _funcList := fs1 ++ f :: fs2;
       _coefList := cs1 ++ c :: cs2; _doFloor := doFloor |}
  = evaluate doFloorGlobal
      {| _haveLastCoef := haveLastCoef; _funcList := fs1 ++ fs2;
         _coefList := cs1 ++ cs2; _doFloor := doFloor |}.
Proof.
  unfold evaluate. simpl. by rewrite evaluate_loop_skip_zero.
Qed.

Lemma evaluate_skips_zero_coefficient_witness :
  evaluate false
    {| _haveLastCoef := false;
       _funcList := [real_arg "f1" 2; real_arg "f2" 100; real_arg "f3" 5];
       _coefList := [real_arg "c1" 3; real_arg "c2" 0]; _doFloor := false |}
  = Some (-4, [3]).
Proof.
  rewrite (evaluate_skips_zero_coefficient (D := Z) false false false
             [real_arg "c1" 3] [] [real_arg "f1" 2] [real_arg "f3" 5]
             (real_arg "c2" 0) (real_arg "f2" 100)) by reflexivity.
  reflexivity.
Defined.

(** ** isBinnedDistribution *)

(** X21: [isBinnedDistribution(obs)] answers yes exactly when every
    function that depends on [obs] is binned; functions that do not depend
    on [obs] are not asked, and a sum without functions is binned. *)
Theorem isBinnedDistribution_all {D} (dependsOn isBinned : RooAbsArg D → bool)
    (funcs : list (RooAbsArg D)) :
  isBinnedDistribution dependsOn isBinned funcs = true
  ↔ ∀ func, func ∈ funcs → dependsOn func = true → isBinned func = true.
Proof.
  induction funcs as [|func funcs IH]; simpl.
  - split; [|done]. intros _ func Hin. by apply elem_of_nil in Hin.
  - destruct (dependsOn func) eqn:Hdep, (isBinned func) eqn:Hbin; simpl.
    + rewrite IH. split.
      * intros Hall g Hin Hg. apply elem_of_cons in Hin as [->|Hin]; auto.
      * intros Hall g Hin. apply Hall. by right.
    + split; [done|]. intros Hall.
      assert (Hin : func ∈ func :: funcs) by (apply elem_of_cons; by left).
      specialize (Hall func Hin Hdep). congruence.
    + rewrite IH. split.
      * intros Hall g Hin Hg. apply elem_of_cons in Hin as [->|Hin]; auto; congruence.
      * intros Hall g Hin. apply Hall. by right.
    + rewrite IH. split.
      * intros Hall g Hin Hg. apply elem_of_cons in Hin as [->|Hin]; auto; congruence.
      * intros Hall g Hin. apply Hall. by right.
Qed.

Lemma isBinnedDistribution_all_witness :
  isBinnedDistribution isSelectedComp isRooAbsReal
    [real_arg "f1" 2; mkRooAbsArg (Some "g") false 0 false] = true.
Proof.
  apply isBinnedDistribution_all. intros func Hin Hdep.
  apply elem_of_cons in Hin as [->|Hin]; [reflexivity|].
  apply list_elem_of_singleton in Hin as ->. discriminate Hdep.
Defined.

(** ** binBoundaries and plotSamplingHint: memory *)

Lemma left_over_cons {D} (delete_func : bool) (p : ptr) (l : list D)
    (hs : list (ptr * list D)) (m : gmap Z (list D)) :
  left_over delete_func ((p, l) :: hs) m
  = left_over delete_func hs (if delete_func then m else <[p := l]> m).
Proof. by destruct delete_func. Qed.

Lemma hint_loop_from_sum {D} `{DoubleOps D} (delete_func : bool)
    (turns : list (hint_turn D)) (sum : ptr) (needClean : bool)
    (sl : list D) (base : gmap Z (list D)) :
  sum ≠ NULL → base !! sum = None →
  NoDup (turn_addresses turns) →
  Forall (λ a, a ≠ NULL ∧ a ≠ sum ∧ base !! a = None) (turn_addresses turns) →
  ∃ r, hint_loop delete_func turns (sum, needClean, <[sum := sl]> base)
       = Some (r, needClean || bool_decide (hints turns ≠ []),
               <[r := foldl (λ s l', std_merge l' s) sl (hints turns).*2]>
                 (left_over delete_func (hints turns) base)) ∧
       r ≠ NULL ∧
       left_over delete_func (hints turns) base !! r = None ∧
       (hints turns = [] → r = sum) ∧
       (hints turns ≠ [] → r ∈ turn_addresses turns).
Proof.
  revert sum needClean sl base.
  induction turns as [|t turns IH]; intros sum needClean sl base Hsum Hbase Hnd Hall.
  - exists sum. simpl. rewrite orb_false_r.
    split; [by destruct delete_func|]. split; [done|].
    split; [by destruct delete_func|]. split; [done|]. by intros Hne.
  - unfold turn_addresses in Hnd, Hall. rewrite bind_cons in Hnd, Hall.
    fold (turn_addresses turns) in Hnd, Hall.
    destruct t as [[[p l]|] a]; simpl in Hnd, Hall.
    + apply NoDup_cons in Hnd as [Hp Hnd]. apply NoDup_cons in Hnd as [Ha Hnd].
      apply not_elem_of_cons in Hp as [Hpa Hp].
      apply Forall_cons in Hall as [(Hp0 & Hps & Hpb) Hall].
      apply Forall_cons in Hall as [(Ha0 & Has & Hab) Hall].
      cbn [hint_loop hint_step answer fresh].
      rewrite decide_True by (split; [done|by rewrite lookup_insert_ne]).
      rewrite decide_False by done.
      rewrite lookup_insert_ne, lookup_insert_eq by done.
      rewrite decide_True
        by (split; [done|by rewrite !lookup_insert_ne by done]).
      set (base' := if delete_func then base else <[p := l]> base).
      assert (Hmem : (if delete_func
                      then delete p (delete sum (<[a := std_merge l sl]>
                             (<[p := l]> (<[sum := sl]> base))))
                      else delete sum (<[a := std_merge l sl]>
                             (<[p := l]> (<[sum := sl]> base))))
                     = <[a := std_merge l sl]> base').
      { subst base'.
        rewrite (delete_insert_ne _ sum a), (delete_insert_ne _ sum p) by done.
        rewrite (delete_insert_id _ sum) by done.
        destruct delete_func; [|done].
        rewrite (delete_insert_ne _ p a) by done.
        by rewrite delete_insert_id. }
      rewrite Hmem.
      destruct (IH a true (std_merge l sl) base')
        as (r & Hrun & Hr & Hfree & Hsame & Hlater).
      * done.
      * subst base'. destruct delete_func; [done|by rewrite lookup_insert_ne].
      * done.
      * apply Forall_forall. intros q Hq.
        rewrite Forall_forall in Hall. destruct (Hall q Hq) as (Hq0 & Hqs & Hqb).
        split; [done|]. split; [by intros ->|].
        subst base'. destruct delete_func; [done|].
        rewrite lookup_insert_ne; [done|]. by intros ->.
      * exists r. rewrite Hrun.
        change (hints (mkHintTurn (Some (p, l)) a :: turns))
          with ((p, l) :: hints turns).
        rewrite left_over_cons. fold base'.
        cbn [orb]. rewrite bool_decide_true by done.
        rewrite orb_true_r. split; [done|]. split; [done|].
        split; [done|]. split; [done|]. intros _.
        change (turn_addresses (mkHintTurn (Some (p, l)) a :: turns))
          with (p :: a :: turn_addresses turns).
        apply elem_of_cons. right. apply elem_of_cons.
        destruct (hints turns) as [|h hs] eqn:Hhs.
        -- left. by apply Hsame.
        -- right. by apply Hlater.
    + apply NoDup_cons in Hnd as [Ha Hnd].
      apply Forall_cons in Hall as [_ Hall].
      cbn [hint_loop hint_step answer].
      destruct (IH sum needClean sl base)
        as (r & Hrun & Hr & Hfree & Hsame & Hlater); [done..|].
      exists r. split; [done|]. split; [done|]. split; [done|].
      split; [done|]. intros Hne.
      change (turn_addresses (mkHintTurn None a :: turns))
        with (a :: turn_addresses turns).
      apply elem_of_cons. right. by apply Hlater.
Qed.

Lemma hint_loop_start {D} `{DoubleOps D} (delete_func : bool)
    (turns : list (hint_turn D)) (m : gmap Z (list D)) :
  fresh_turns turns m →
  (hints turns = [] →
   hint_loop delete_func turns (NULL, false, m) = Some (NULL, false, m)) ∧
  (∀ p l hs, hints turns = (p, l) :: hs →
     ∃ r, hint_loop delete_func turns (NULL, false, m)
          = Some (r, bool_decide (hs ≠ []),
                  <[r := foldl (λ s l', std_merge l' s) l hs.*2]>
                    (left_over delete_func hs m)) ∧
          r ≠ NULL ∧ left_over delete_func hs m !! r = None ∧
          (hs = [] → r = p) ∧ (hs ≠ [] → r ≠ p)).
Proof.
  intros [Hnd Hall]. induction turns as [|t turns IH].
  - split; [done|]. intros p l hs Hhs. discriminate Hhs.
  - unfold turn_addresses in Hnd, Hall. rewrite bind_cons in Hnd, Hall.
    fold (turn_addresses turns) in Hnd, Hall.
    destruct t as [[[p l]|] a]; simpl in Hnd, Hall.
    + apply NoDup_cons in Hnd as [Hp Hnd]. apply NoDup_cons in Hnd as [Ha Hnd].
      apply not_elem_of_cons in Hp as [Hpa Hp].
      apply Forall_cons in Hall as [(Hp0 & Hpb) Hall].
      apply Forall_cons in Hall as [(Ha0 & Hab) Hall].
      split; [intros Hhs; discriminate Hhs|].
      intros p' l' hs Hhs.
      change (hints (mkHintTurn (Some (p, l)) a :: turns))
        with ((p, l) :: hints turns) in Hhs.
      injection Hhs as <- <- <-.
      cbn [hint_loop hint_step answer fresh].
      rewrite decide_True by done. rewrite decide_True by done.
      destruct (hint_loop_from_sum delete_func turns p false l m)
        as (r & Hrun & Hr & Hfree & Hsame & Hlater); [done|done|done| |].
      { apply Forall_forall. intros q Hq.
        rewrite Forall_forall in Hall. destruct (Hall q Hq) as [Hq0 Hqb].
        split; [done|]. split; [by intros ->|done]. }
      exists r. rewrite Hrun. cbn [orb].
      split; [done|]. split; [done|]. split; [done|]. split; [done|].
      intros Hne ->. apply Hp. by apply Hlater.
    + apply NoDup_cons in Hnd as [Ha Hnd].
      apply Forall_cons in Hall as [_ Hall].
      cbn [hint_loop hint_step answer]. by apply IH.
Qed.

Lemma with_hints_lookup_other {D} (hs : list (ptr * list D))
    (m : gmap Z (list D)) (q : ptr) :
  q ∉ hs.*1 → with_hints hs m !! q = m !! q.
Proof.
  revert m. induction hs as [|[p l] hs IH]; intros m Hq; [done|].
  simpl in Hq. apply not_elem_of_cons in Hq as [Hqp Hq].
  unfold with_hints in *. simpl. rewrite IH by done.
  by rewrite lookup_insert_ne.
Qed.

Lemma with_hints_lookup {D} (hs : list (ptr * list D))
    (m : gmap Z (list D)) (q : ptr) (lq : list D) :
  NoDup hs.*1 → (q, lq) ∈ hs → with_hints hs m !! q = Some lq.
Proof.
  revert m. induction hs as [|[p l] hs IH]; intros m Hnd Hin.
  - by apply elem_of_nil in Hin.
  - simpl in Hnd. apply NoDup_cons in Hnd as [Hp Hnd].
    apply elem_of_cons in Hin as [Heq|Hin].
    + injection Heq as -> ->.
      change (with_hints ((p, l) :: hs) m)
        with (with_hints hs (<[p := l]> m)).
      rewrite with_hints_lookup_other by done. apply lookup_insert_eq.
    + change (with_hints ((p, l) :: hs) m)
        with (with_hints hs (<[p := l]> m)).
      by apply IH.
Qed.

Lemma hints_addresses {D} (turns : list (hint_turn D)) :
  (hints turns).*1 `sublist_of` turn_addresses turns.
Proof.
  induction turns as [|[[[p l]|] a] turns IH]; [done| |].
  - change (hints (mkHintTurn (Some (p, l)) a :: turns))
      with ((p, l) :: hints turns).
    change (turn_addresses (mkHintTurn (Some (p, l)) a :: turns))
      with (p :: a :: turn_addresses turns).
    simpl. apply sublist_skip. by apply sublist_cons.
  - change (turn_addresses (mkHintTurn None a :: turns))
      with (a :: turn_addresses turns).
    by apply sublist_cons.
Qed.

(** X22: [binBoundaries] and the lists it is given.  When no component
    answers, the result is null and memory is untouched.  When components
    answer, the result holds the combined boundaries and memory is what it
    was before the call with the result added: the lists of the
    components and the sums in between are all given back, except that a
    single answer is passed on as it is, the same object. *)
Theorem binBoundaries_memory {D} `{DoubleOps D} (turns : list (hint_turn D))
    (m : gmap Z (list D)) (Hfresh : fresh_turns turns m) :
  (hints turns = [] → binBoundaries turns m = Some (NULL, m)) ∧
  (∀ p l, hints turns = [(p, l)] →
     binBoundaries turns m = Some (p, <[p := l]> m)) ∧
  (∀ v, combined (hints turns).*2 = Some v →
     ∃ r, binBoundaries turns m = Some (r, <[r := v]> m) ∧
          r ≠ NULL ∧ m !! r = None).
Proof.
  destruct (hint_loop_start true turns m Hfresh) as [Hnone Hsome].
  unfold binBoundaries, sum_hints.
  split; [|split].
  - intros Hhs. by rewrite (Hnone Hhs).
  - intros p l Hhs.
    destruct (Hsome p l [] Hhs) as (r & Hrun & Hr & Hfree & Hsame & _).
    rewrite Hrun. rewrite (Hsame eq_refl). done.
  - intros v Hv. destruct (hints turns) as [|[p l] hs] eqn:Hhs; [done|].
    destruct (Hsome p l hs eq_refl) as (r & Hrun & Hr & Hfree & Hsame & _).
    exists r. rewrite Hrun. simpl in Hfree. split; [|done].
    destruct hs as [|h hs].
    + simpl in *. by injection Hv as <-.
    + rewrite bool_decide_true by done.
      rewrite alter_insert_eq. simpl in Hv. by injection Hv as <-.
Qed.

(** X23: [plotSamplingHint] does the same with the values, but it does not
    delete the list of a component after it has merged it.  With two
    answers or more, the list of the first component is given back and the
    list of every later component is still allocated when the function
    returns, and is not the result. *)
Theorem plotSamplingHint_leaves_hints {D} `{DoubleOps D}
    (turns : list (hint_turn D)) (m : gmap Z (list D))
    (Hfresh : fresh_turns turns m) :
  (hints turns = [] → plotSamplingHint turns m = Some (NULL, m)) ∧
  (∀ p l hs v, hints turns = (p, l) :: hs →
     combined (l :: hs.*2) = Some v →
     ∃ r, plotSamplingHint turns m = Some (r, <[r := v]> (with_hints hs m)) ∧
          r ≠ NULL ∧ m !! r = None ∧
          (hs ≠ [] → (<[r := v]> (with_hints hs m)) !! p = None) ∧
          (∀ q lq, (q, lq) ∈ hs →
             q ≠ r ∧ (<[r := v]> (with_hints hs m)) !! q = Some lq)).
Proof.
  destruct (hint_loop_start false turns m Hfresh) as [Hnone Hsome].
  unfold plotSamplingHint, sum_hints.
  split.
  - intros Hhs. by rewrite (Hnone Hhs).
  - intros p l hs v Hhs Hv.
    destruct (Hsome p l hs Hhs) as (r & Hrun & Hr & Hfree & Hsame & Hdiff).
    simpl in Hfree. destruct Hfresh as [Hnd Hall].
    pose proof (sublist_NoDup _ _ Hnd (hints_addresses turns)) as Hnd'.
    rewrite Hhs in Hnd'. simpl in Hnd'.
    apply NoDup_cons in Hnd' as [Hp Hnd'].
    assert (Hrhs : r ∉ hs.*1).
    { intros Hin. apply list_elem_of_fmap in Hin as ([q lq] & Heq & Hin).
      simpl in Heq. subst q.
      rewrite (with_hints_lookup hs m r lq) in Hfree by done. done. }
    assert (Hmr : m !! r = None).
    { by rewrite with_hints_lookup_other in Hfree. }
    exists r. rewrite Hrun. split.
    { destruct hs as [|h hs].
      - simpl in *. by injection Hv as <-.
      - rewrite bool_decide_true by done.
        rewrite alter_insert_eq. simpl in Hv. by injection Hv as <-. }
    split; [done|]. split; [done|]. split.
    + intros Hne. specialize (Hdiff Hne).
      rewrite lookup_insert_ne by done.
      rewrite with_hints_lookup_other by done.
      rewrite Forall_forall in Hall. apply Hall.
      eapply elem_of_sublist; [|apply hints_addresses].
      rewrite Hhs. simpl. apply elem_of_cons. by left.
    + intros q lq Hin. assert (q ≠ r).
      { intros ->. apply Hrhs. apply list_elem_of_fmap. by exists (r, lq). }
      split; [done|]. rewrite lookup_insert_ne by done.
      by apply with_hints_lookup.
Qed.

Lemma sample_turns_fresh : fresh_turns sample_turns ∅.
Proof.
  split.
  - unfold sample_turns, turn_addresses. simpl.
    apply (bool_decide_unpack _). vm_compute. exact I.
  - unfold sample_turns, turn_addresses. simpl.
    repeat (apply Forall_cons; split; [split; [done|apply lookup_empty]|]).
    apply Forall_nil_2.
Defined.

Lemma binBoundaries_memory_witness :
  binBoundaries sample_turns ∅ = Some (22, {[ 22 := [1; 2; 3; 5; 6] ]}).
Proof.
  destruct (binBoundaries_memory sample_turns ∅ sample_turns_fresh)
    as (_ & _ & Hsome).
  destruct (Hsome [1; 2; 3; 5; 6] eq_refl) as (r & Hrun & Hr & Hfree).
  rewrite Hrun. vm_compute in Hrun. injection Hrun as <-. reflexivity.
Defined.

Lemma plotSamplingHint_leaves_hints_witness :
  ∃ m', plotSamplingHint sample_turns ∅ = Some (22, m') ∧
        m' !! 22 = Some [1; 2; 3; 5; 6] ∧ m' !! 11 = Some [2; 3; 6] ∧
        m' !! 10 = None.
Proof.
  destruct (plotSamplingHint_leaves_hints sample_turns ∅ sample_turns_fresh)
    as (_ & Hsome).
  destruct (Hsome 10 [1; 3; 5] [(11, [2; 3; 6])] [1; 2; 3; 5; 6] eq_refl eq_refl)
    as (r & Hrun & Hr & Hfree & Hfirst & Hlater).
  assert (r = 22) as -> by (vm_compute in Hrun; congruence).
  eexists. split; [exact Hrun|]. split; [apply lookup_insert_eq|].
  split.
  - apply (Hlater 11 [2; 3; 6]). apply list_elem_of_singleton. reflexivity.
  - apply Hfirst. discriminate.
Defined.

(** ** binBoundaries and plotSamplingHint: values *)

Lemma std_merge_nil_l {D} `{DoubleOps D} (l2 : list D) : std_merge [] l2 = l2.
Proof. by destruct l2. Qed.

Lemma std_merge_nil_r {D} `{DoubleOps D} (l1 : list D) : std_merge l1 [] = l1.
Proof. by destruct l1. Qed.

Lemma std_merge_cons {D} `{DoubleOps D} (a b : D) (l1 l2 : list D) :
  std_merge (a :: l1) (b :: l2)
  = if d_lt b a then b :: std_merge (a :: l1) l2
    else a :: std_merge l1 (b :: l2).
Proof. done. Qed.

Lemma std_merge_perm {D} `{DoubleOps D} (l1 l2 : list D) :
  std_merge l1 l2 ≡ₚ l1 ++ l2.
Proof.
  revert l2. induction l1 as [|a l1 IH1]; intros l2.
  - by rewrite std_merge_nil_l.
  - induction l2 as [|b l2 IH2].
    + by rewrite std_merge_nil_r, app_nil_r.
    + rewrite std_merge_cons. destruct (d_lt b a).
      * rewrite IH2. by rewrite (Permutation_middle (a :: l1) l2 b).
      * by rewrite IH1.
Qed.

Lemma merged_perm {D} `{DoubleOps D} (l : list D) (ls : list (list D)) :
  foldl (λ sum l', std_merge l' sum) l ls ≡ₚ l ++ mjoin ls.
Proof.
  revert l. induction ls as [|l' ls IH]; intros l; simpl.
  - by rewrite app_nil_r.
  - rewrite IH, std_merge_perm. rewrite !app_assoc.
    by rewrite (Permutation_app_comm l' l).
Qed.

Lemma unique_after_sublist {D} `{DoubleOps D} (kept : D) (l : list D) :
  unique_after kept l `sublist_of` l.
Proof.
  revert kept. induction l as [|a l IH]; intros kept; simpl; [done|].
  destruct (d_eq kept a); [by apply sublist_cons|by apply sublist_skip].
Qed.

Lemma std_unique_sublist {D} `{DoubleOps D} (l : list D) :
  std_unique l `sublist_of` l.
Proof.
  destruct l as [|a l]; [done|]. simpl.
  apply sublist_skip, unique_after_sublist.
Qed.

Lemma unique_after_covers {D} `{DoubleOps D} (kept : D) (l : list D) (x : D) :
  x ∈ l →
  x ∈ unique_after kept l ∨ d_eq kept x = true ∨
  ∃ y, y ∈ unique_after kept l ∧ d_eq y x = true.
Proof.
  revert kept. induction l as [|a l IH]; intros kept Hin.
  - by apply elem_of_nil in Hin.
  - simpl. apply elem_of_cons in Hin as [->|Hin].
    + destruct (d_eq kept a) eqn:Heq; [by right; left|].
      left. apply elem_of_cons. by left.
    + destruct (d_eq kept a) eqn:Heq; [by apply IH|].
      destruct (IH a Hin) as [Hx|[Hx|(y & Hy & Hyx)]].
      * left. apply elem_of_cons. by right.
      * right. right. exists a. split; [|done]. apply elem_of_cons. by left.
      * right. right. exists y. split; [|done]. apply elem_of_cons. by right.
Qed.

Lemma std_unique_covers {D} `{DoubleOps D} (l : list D) (x : D) :
  x ∈ l → x ∈ std_unique l ∨ ∃ y, y ∈ std_unique l ∧ d_eq y x = true.
Proof.
  destruct l as [|a l]; intros Hin; [by apply elem_of_nil in Hin|].
  simpl. apply elem_of_cons in Hin as [->|Hin].
  - left. apply elem_of_cons. by left.
  - destruct (unique_after_covers a l x Hin) as [Hx|[Hx|(y & Hy & Hyx)]].
    + left. apply elem_of_cons. by right.
    + right. exists a. split; [|done]. apply elem_of_cons. by left.
    + right. exists y. split; [|done]. apply elem_of_cons. by right.
Qed.

Lemma unique_after_differ {D} `{DoubleOps D} (kept : D) (l : list D) :
  Sorted differ (unique_after kept l) ∧ HdRel differ kept (unique_after kept l).
Proof.
  revert kept. induction l as [|a l IH]; intros kept; simpl.
  - split; constructor.
  - destruct (d_eq kept a) eqn:Heq; [apply IH|].
    destruct (IH a) as [Hs Hh]. split; [by constructor|by constructor].
Qed.

Lemma std_unique_differ {D} `{DoubleOps D} (l : list D) :
  no_equal_neighbours (std_unique l).
Proof.
  destruct l as [|a l]; [constructor|]. simpl.
  destruct (unique_after_differ a l). by constructor.
Qed.

(** X24: the values [binBoundaries] and [plotSamplingHint] return.  Every
    value of the result is a value of some component; every value of a
    component is in the result or compares equal to one that is; the
    result is no longer than the lists together; and with two answers or
    more no two neighbours of the result compare equal. *)
Theorem combined_elements {D} `{DoubleOps D} (ls : list (list D)) (v : list D)
    (Hv : combined ls = Some v) :
  (∀ x, x ∈ v → ∃ l, l ∈ ls ∧ x ∈ l) ∧
  (∀ l x, l ∈ ls → x ∈ l → x ∈ v ∨ ∃ y, y ∈ v ∧ d_eq y x = true) ∧
  (length v ≤ length (mjoin ls))%nat ∧
  ((2 ≤ length ls)%nat → no_equal_neighbours v).
Proof.
  destruct ls as [|l ls]; [done|].
  assert (Hin : ∀ x, x ∈ l ++ mjoin ls ↔ ∃ l', l' ∈ l :: ls ∧ x ∈ l').
  { intros x. change (l ++ mjoin ls) with (mjoin (l :: ls)).
    rewrite list_elem_of_join.
    split; intros (l' & Hl & Hx); exists l'; done. }
  destruct ls as [|l2 ls].
  { simpl in Hv. injection Hv as <-. split; [|split; [|split]].
    - intros x Hx. exists l. split; [apply elem_of_cons; by left|done].
    - intros l' x Hl' Hx. apply list_elem_of_singleton in Hl' as ->. by left.
    - simpl. by rewrite app_nil_r.
    - simpl. lia. }
  assert (Hv' : v = std_unique (foldl (λ sum l', std_merge l' sum) l (l2 :: ls)))
    by (by injection Hv as <-).
  clear Hv. subst v.
  split; [|split; [|split]].
  - intros x Hx. apply Hin.
    rewrite <- (merged_perm l (l2 :: ls)).
    eapply elem_of_sublist; [exact Hx|apply std_unique_sublist].
  - intros l' x Hl' Hx. apply std_unique_covers.
    rewrite merged_perm. apply Hin. by exists l'.
  - change (mjoin (l :: l2 :: ls)) with (l ++ mjoin (l2 :: ls)).
    rewrite <- (merged_perm l (l2 :: ls)).
    apply sublist_length, std_unique_sublist.
  - intros _. apply std_unique_differ.
Qed.

Lemma combined_elements_witness :
  combined [[1; 3; 5]; [2; 3; 6]] = Some [1; 2; 3; 5; 6] ∧
  no_equal_neighbours (D := Z) [1; 2; 3; 5; 6].
Proof.
  assert (Hv : combined [[1; 3; 5]; [2; 3; 6]] = Some [1; 2; 3; 5; 6])
    by reflexivity.
  split; [exact Hv|].
  destruct (combined_elements _ _ Hv) as (_ & _ & _ & Hdiff).
  apply Hdiff. simpl. lia.
Defined.

(** *** Sorted hints *)

Section sorted_hints.
Context {D : Type} `{DoubleOps D}.

(** The values the comparison is an order on: for [double], those that
    are not NaN. *)
Variable ordinary : D → Prop.

Hypothesis before_asym :
  ∀ a b, ordinary a → ordinary b → before a b → not_after a b.
Hypothesis not_after_trans :
  ∀ a b c, ordinary a → ordinary b → ordinary c →
    not_after a b → not_after b c → not_after a c.
Hypothesis differ_before :
  ∀ a b, ordinary a → ordinary b → not_after a b → differ a b → before a b.

Lemma HdRel_std_merge (x : D) (l1 l2 : list D) :
  HdRel not_after x l1 → HdRel not_after x l2 →
  HdRel not_after x (std_merge l1 l2).
Proof.
  intros H1 H2. destruct l1 as [|a l1], l2 as [|b l2]; try done.
  rewrite std_merge_cons.
  destruct (d_lt b a); constructor;
    [by apply HdRel_inv in H2|by apply HdRel_inv in H1].
Qed.

Lemma std_merge_sorted (l1 l2 : list D) :
  Forall ordinary l1 → Forall ordinary l2 →
  Sorted not_after l1 → Sorted not_after l2 →
  Sorted not_after (std_merge l1 l2).
Proof.
  revert l2. induction l1 as [|a l1 IH1]; intros l2 Ho1 Ho2 Hs1 Hs2.
  - by rewrite std_merge_nil_l.
  - induction l2 as [|b l2 IH2].
    + by rewrite std_merge_nil_r.
    + rewrite std_merge_cons.
      apply Forall_cons in Ho1 as [Ha Ho1].
      apply Forall_cons in Ho2 as [Hb Ho2].
      apply Sorted_inv in Hs1 as [Hs1 Hh1].
      apply Sorted_inv in Hs2 as [Hs2 Hh2].
      destruct (d_lt b a) eqn:Hlt.
      * constructor.
        -- apply IH2; [done|done].
        -- apply HdRel_std_merge; [|done].
           constructor. by apply before_asym.
      * constructor.
        -- apply IH1; [done|by constructor|done|by constructor].
        -- apply HdRel_std_merge; [done|]. by constructor.
Qed.

Lemma merged_sorted (l : list D) (ls : list (list D)) :
  Forall ordinary l → Forall (Forall ordinary) ls →
  Sorted not_after l → Forall (Sorted not_after) ls →
  Sorted not_after (foldl (λ sum l', std_merge l' sum) l ls) ∧
  Forall ordinary (foldl (λ sum l', std_merge l' sum) l ls).
Proof.
  revert l. induction ls as [|l' ls IH]; intros l Ho Hos Hs Hss; [done|].
  apply Forall_cons in Hos as [Ho' Hos].
  apply Forall_cons in Hss as [Hs' Hss].
  simpl. apply IH; [|done| |done].
  - rewrite std_merge_perm. by apply Forall_app.
  - by apply std_merge_sorted.
Qed.

Lemma unique_after_sorted (kept : D) (l : list D) :
  Forall ordinary (kept :: l) → Sorted not_after (kept :: l) →
  Sorted before (unique_after kept l) ∧
  HdRel before kept (unique_after kept l).
Proof.
  revert kept. induction l as [|a l IH]; intros kept Ho Hs; simpl.
  - split; constructor.
  - apply Forall_cons in Ho as [Hk Ho].
    pose proof Ho as Ho'. apply Forall_cons in Ho' as [Ha Hl].
    apply Sorted_inv in Hs as [Hs Hh]. apply HdRel_inv in Hh.
    destruct (d_eq kept a) eqn:Heq.
    + apply IH; [by constructor|].
      apply Sorted_inv in Hs as [Hs Hh']. constructor; [done|].
      destruct l as [|b l]; constructor.
      apply HdRel_inv in Hh'. apply Forall_cons in Hl as [Hb _].
      by apply (not_after_trans kept a b).
    + destruct (IH a Ho Hs) as [Hs' Hh']. split; [by constructor|].
      constructor. by apply differ_before.
Qed.

Lemma before_not_after (l : list D) :
  Forall ordinary l → Sorted before l → Sorted not_after l.
Proof.
  induction l as [|a l IH]; intros Ho Hs; [constructor|].
  apply Forall_cons in Ho as [Ha Ho]. apply Sorted_inv in Hs as [Hs Hh].
  constructor; [by apply IH|].
  destruct l as [|b l]; constructor.
  apply HdRel_inv in Hh. apply Forall_cons in Ho as [Hb _].
  by apply before_asym.
Qed.

(** X25: when every component gives values on which the comparison is an
    order, in ascending order, the result of [binBoundaries] and
    [plotSamplingHint] is in ascending order, and with two answers or
    more each of its values is less than the next. *)
Theorem combined_sorted (ls : list (list D)) (v : list D)
    (Hordinary : Forall (Forall ordinary) ls)
    (Hsorted : Forall (Sorted not_after) ls)
    (Hv : combined ls = Some v) :
  Sorted not_after v ∧ ((2 ≤ length ls)%nat → Sorted before v).
Proof.
  destruct ls as [|l ls]; [done|].
  apply Forall_cons in Hordinary as [Ho Hos].
  apply Forall_cons in Hsorted as [Hs Hss].
  destruct ls as [|l2 ls].
  { simpl in Hv. injection Hv as <-. split; [done|]. simpl. lia. }
  assert (Hv' : v = std_unique (foldl (λ sum l', std_merge l' sum) l (l2 :: ls)))
    by (by injection Hv as <-).
  clear Hv. subst v.
  destruct (merged_sorted l (l2 :: ls)) as [Hms Hmo]; [done..|].
  assert (Hbefore : Sorted before
            (std_unique (foldl (λ sum l', std_merge l' sum) l (l2 :: ls)))).
  { destruct (foldl _ l (l2 :: ls)) as [|a m]; [constructor|]. simpl.
    destruct (unique_after_sorted a m) as [Hs' Hh']; [done|done|].
    by constructor. }
  split; [|done].
  apply before_not_after; [|done].
  apply Forall_forall. intros x Hx. rewrite Forall_forall in Hmo.
  apply Hmo. eapply elem_of_sublist; [exact Hx|apply std_unique_sublist].
Qed.
End sorted_hints.

Lemma combined_sorted_witness :
  Sorted (before (D := Z)) [1; 2; 3; 5; 6].
Proof.
  assert (Hv : combined [[1; 3; 5]; [2; 3; 6]] = Some [1; 2; 3; 5; 6])
    by reflexivity.
  assert (Hasym : ∀ a b : Z, True → True → before a b → not_after a b).
  { intros a b _ _. unfold before, not_after. simpl.
    rewrite Z.ltb_lt, Z.ltb_ge. lia. }
  assert (Htrans : ∀ a b c : Z, True → True → True →
                     not_after a b → not_after b c → not_after a c).
  { intros a b c _ _ _. unfold not_after. simpl. rewrite !Z.ltb_ge. lia. }
  assert (Hstrict : ∀ a b : Z, True → True →
                      not_after a b → differ a b → before a b).
  { intros a b _ _. unfold before, not_after, differ. simpl.
    rewrite Z.ltb_lt, Z.ltb_ge, Z.eqb_neq. lia. }
  assert (Hsorted : Forall (Sorted (not_after (D := Z))) [[1; 3; 5]; [2; 3; 6]]).
  { repeat constructor. }
  assert (Hordinary : Forall (Forall (λ _ : Z, True)) [[1; 3; 5]; [2; 3; 6]]).
  { repeat constructor. }
  destruct (combined_sorted (λ _ : Z, True) Hasym Htrans Hstrict
              _ _ Hordinary Hsorted Hv) as [_ Hbefore].
  apply Hbefore. simpl. lia.
Defined.

(** ** printMetaArgs *)

Lemma string_app_assoc (s1 s2 s3 : string) :
  (s1 +:+ s2) +:+ s3 = s1 +:+ (s2 +:+ s3).
Proof.
  induction s1 as [|c s1 IH]; [reflexivity|].
  change (String c ((s1 +:+ s2) +:+ s3) = String c (s1 +:+ (s2 +:+ s3))).
  by rewrite IH.
Qed.

Lemma string_app_nil_r (s : string) : s +:+ "" = s.
Proof.
  induction s as [|c s IH]; [reflexivity|].
  change (String c (s +:+ "") = String c s). by rewrite IH.
Qed.

Lemma joined_cons (first : bool) (t : string) (rest : list string) :
  joined first (t :: rest)
  = (if first then "" else " + ") +:+ (t +:+ joined false rest).
Proof.
  unfold joined. destruct rest as [|t' rest].
  - by rewrite string_app_nil_r.
  - done.
Qed.

Lemma joined_true (terms : list string) :
  joined true terms = String.concat " + " terms.
Proof. by destruct terms. Qed.

Lemma concat_snoc (t x : string) (terms : list string) :
  String.concat " + " ((t :: terms) ++ [x])
  = String.concat " + " (t :: terms) +:+ (" + " +:+ x).
Proof.
  revert t. induction terms as [|t' terms IH]; intros t; [done|].
  change (String.concat " + " ((t :: t' :: terms) ++ [x]))
    with (t +:+ " + " +:+ String.concat " + " ((t' :: terms) ++ [x])).
  rewrite IH.
  change (String.concat " + " (t :: t' :: terms))
    with (t +:+ " + " +:+ String.concat " + " (t' :: terms)).
  by rewrite !string_app_assoc.
Qed.

Lemma print_pairs_text {D} (coefs funcs : list (RooAbsArg D)) (first : bool)
    (os : string) :
  (length coefs ≤ length funcs)%nat →
  Forall (λ a, is_Some (GetName a)) funcs →
  Forall (λ a, is_Some (GetName a)) coefs →
  print_pairs coefs funcs first os
  = Some (os +:+ joined first
                   (zip_with (λ c f, (name_of c +:+ " * ") +:+ name_of f)
                      coefs funcs),
          drop (length coefs) funcs).
Proof.
  revert funcs first os.
  induction coefs as [|coef coefs IH]; intros funcs first os Hlen Hf Hc.
  - simpl. by rewrite string_app_nil_r.
  - destruct funcs as [|func funcs]; simpl in Hlen; [lia|].
    apply Forall_cons in Hf as [[fn Hfn] Hf].
    apply Forall_cons in Hc as [[cn Hcn] Hc].
    cbn [print_pairs]. rewrite Hcn, Hfn. rewrite IH by (done || lia).
    cbn [zip_with length drop]. rewrite joined_cons.
    unfold name_of. rewrite Hcn, Hfn. simpl default.
    f_equal. f_equal. destruct first; by rewrite ?string_app_assoc.
Qed.

Lemma print_pairs_short {D} (coefs funcs : list (RooAbsArg D)) (first : bool)
    (os : string) :
  (length funcs < length coefs)%nat → print_pairs coefs funcs first os = None.
Proof.
  revert funcs first os.
  induction coefs as [|coef coefs IH]; intros funcs first os Hlen;
    simpl in Hlen; [lia|].
  destruct funcs as [|func funcs]; [done|]. simpl in Hlen. cbn [print_pairs].
  destruct (GetName coef), (GetName func); try done. apply IH. lia.
Qed.

Lemma print_funcs_text {D} (funcs : list (RooAbsArg D)) (first : bool)
    (os : string) :
  Forall (λ a, is_Some (GetName a)) funcs →
  print_funcs funcs first os = Some (os +:+ joined first (name_of <$> funcs)).
Proof.
  revert first os. induction funcs as [|func funcs IH]; intros first os Hf.
  - simpl. by rewrite string_app_nil_r.
  - apply Forall_cons in Hf as [[fn Hfn] Hf].
    cbn [print_funcs]. rewrite Hfn. rewrite IH by done.
    cbn [fmap list_fmap]. rewrite joined_cons.
    unfold name_of at 2. rewrite Hfn. simpl default.
    f_equal. destruct first; by rewrite ?string_app_assoc.
Qed.

(** X26: what [printMetaArgs] writes.  With names everywhere and a
    function for every coefficient, it writes the terms joined by
    [" + "] and a blank: [c * f] for a coefficient and its function and
    [[%] * f] for the function that comes after the last coefficient; with
    no coefficient, the names of the functions.  With fewer functions than
    coefficients it reads past the end of the function list. *)
Theorem printMetaArgs_text {D} (self : RooRealSumFunc D) (os : string) :
  (all_named self →
   (length (_coefList self) ≤ length (_funcList self))%nat →
   printMetaArgs self os
   = Some ((os +:+ String.concat " + " (meta_terms self)) +:+ " ")) ∧
  ((length (_funcList self) < length (_coefList self))%nat →
   printMetaArgs self os = None).
Proof.
  split.
  - intros [Hf Hc] Hlen. unfold printMetaArgs, meta_terms.
    destruct (_coefList self) as [|coef coefs] eqn:Hcoefs.
    + rewrite bool_decide_false by (simpl; lia).
      rewrite print_funcs_text by done. by rewrite joined_true.
    + rewrite bool_decide_true by (simpl; lia).
      rewrite print_pairs_text by done.
      destruct (_funcList self) as [|func funcs] eqn:Hfuncs;
        [simpl in Hlen; lia|].
      rewrite joined_true.
      destruct (drop (length (coef :: coefs)) (func :: funcs))
        as [|last rest] eqn:Hdrop.
      * by rewrite app_nil_r.
      * assert (Hlast : last ∈ func :: funcs).
        { eapply elem_of_sublist; [|apply (sublist_drop _ (length (coef :: coefs)))].
          rewrite Hdrop. apply elem_of_cons. by left. }
        rewrite Forall_forall in Hf. destruct (Hf last Hlast) as [ln Hln].
        assert (Hname : name_of last = ln) by (unfold name_of; by rewrite Hln).
        rewrite Hln, Hname.
        cbn [zip_with]. rewrite concat_snoc.
        by rewrite !string_app_assoc.
  - intros Hlen. unfold printMetaArgs.
    rewrite bool_decide_true by lia.
    by rewrite print_pairs_short.
Qed.

Lemma printMetaArgs_text_witness :
  printMetaArgs
    {| _haveLastCoef := false;
       _funcList := [real_arg "f1" 2; real_arg "f2" 5; real_arg "f3" 7];
       _coefList := [real_arg "c1" 3; real_arg "c2" 4]; _doFloor := false |}
    "" = Some "c1 * f1 + c2 * f2 + [%] * f3 " ∧
  printMetaArgs
    {| _haveLastCoef := false; _funcList := [real_arg "f1" 2];
       _coefList := [real_arg "c1" 3; real_arg "c2" 4]; _doFloor := false |}
    "" = None.
Proof.
  split.
  - destruct (printMetaArgs_text
                {| _haveLastCoef := false;
                   _funcList := [real_arg "f1" 2; real_arg "f2" 5; real_arg "f3" 7];
                   _coefList := [real_arg "c1" 3; real_arg "c2" 4];
                   _doFloor := false |} "") as [Htext _].
    rewrite Htext; [reflexivity| |simpl; lia].
    split; repeat constructor; by eexists.
  - destruct (printMetaArgs_text
                {| _haveLastCoef := false; _funcList := [real_arg "f1" 2];
                   _coefList := [real_arg "c1" 3; real_arg "c2" 4];
                   _doFloor := false |} "") as [_ Hshort].
    apply Hshort. simpl. lia.
Defined.
